(** * passgen: a shallow embedding of [passgen.c]

  The definitions come first, module by module:
  - [Word]      : [size_t] arithmetic (wrap-around, division by zero);
  - [Entropy]   : the behaviour of one [getrandom] call, as the code sees it;
  - [RandInt]   : [randInt], the rejection sampler;
  - [Libc]      : [strtol], [calloc], [strcpy] and [puts];
  - [Cli]       : [parseOption] and [parseLongOption];
  - [Passgen]   : the flag loop, the alphabet, the selection loop, [main];
  - [Notions]   : the vocabulary of the statements.
  The properties follow, [randInt] first, then [main], then the parser,
  the flag loop, the alphabet and whole runs.

  Integers of type [size_t] are values of [Z] in [[0, MAX]], the wrap-around
  of every operation written out.  The entropy source is a script: the list
  of the results of the successive [getrandom] calls. *)

From Stdlib Require Import ZArith List String Ascii Bool Lia.
Import ListNotations.

Local Open Scope Z_scope.

(* ------------------------------------------------------------------ *)
(** ** [size_t] *)

Module Word.

(** Width of [size_t] on the 64-bit targets the program is built for. *)
Definition SIZE_BITS : Z := 64.

Definition modulus : Z := 2 ^ SIZE_BITS.

(** Conversion to [size_t]. *)
Definition wrap (z : Z) : Z := z mod modulus.

(** [static size_t const MAX = ~0;] *)
Definition MAX : Z := wrap (Z.lnot 0).

(** [a / b] on [size_t]: undefined when [b] is zero. *)
Definition udiv (a b : Z) : option Z :=
  if b =? 0 then None else Some (a / b).

(** [a * b] on [size_t]. *)
Definition umul (a b : Z) : Z := wrap (a * b).

(** [a + b] on [size_t]. *)
Definition uadd (a b : Z) : Z := wrap (a + b).

(** [a % b] on [size_t], used only where [b] is known to be non-zero. *)
Definition umod (a b : Z) : Z := a mod b.

End Word.

(* ------------------------------------------------------------------ *)
(** ** The entropy source *)

Module Entropy.

(** [sizeof (buf)] for [size_t buf]. *)
Definition SIZEOF_BUF : Z := Word.SIZE_BITS / 8.

(** What one call [getrandom(&buf, sizeof (buf), 0)] does.
    - [GRRead n w]: [n] bytes were delivered and [buf] now holds the word
      [w]; the read is full when [n = SIZEOF_BUF], short otherwise.  [errno]
      is left alone.
    - [GRError e]: the call failed, returned [-1] and stored [e] in [errno]
      ([EINTR] when a signal interrupted it, [ENOSYS], [EFAULT], ...). *)
Inductive getrandom_result : Type :=
| GRRead (n : Z) (w : Z)
| GRError (e : Z).

(** A full read of the word [w]. *)
Definition GRFull (w : Z) : getrandom_result := GRRead SIZEOF_BUF w.

(** The scripted source: the results of the calls still to come. *)
Definition entropy : Type := list getrandom_result.

(** [errno.h] of Linux. *)
Definition EINTR : Z := 4.
Definition ENOSYS : Z := 38.

(** [getrandom d buf errno] is the triple (return value, [buf], [errno])
    after the call. *)
Definition getrandom (d : getrandom_result) (buf errno : Z) : Z * Z * Z :=
  match d with
  | GRRead n w => (n, w, errno)
  | GRError e => (-1, buf, e)
  end.

End Entropy.

(* ------------------------------------------------------------------ *)
(** ** [randInt] *)

Module RandInt.
Import Word Entropy.

(** How a call of [randInt] ends. *)
Inductive outcome : Type :=
| Returned (r : Z) (errno : Z) (rest : entropy)
    (** [return r], with [errno] as the caller finds it *)
| DivByZero
    (** [MAX / limit] evaluated with [limit == 0] *)
| Starved.
    (** the script ended while the function was still drawing *)

(** The body of [randInt], from the label [restart].  [buf] is the content
    of the local variable, indeterminate on entry.  Both ways back to the
    top, the [for] loop going round and [goto restart], find [errno] zero
    and call [getrandom] next, hence the single recursive call. *)
Fixpoint randInt_from (limit : Z) (buf : Z) (s : entropy) : outcome :=
  match s with
  | [] => Starved
  | d :: rest =>
      let '(ret, buf, errno) := getrandom d buf 0 in
      if negb (ret =? SIZEOF_BUF) && (errno =? 0) then
        randInt_from limit buf rest
      else if negb (errno =? 0) then
        Returned 0 errno rest
      else
        match udiv MAX limit with
        | None => DivByZero
        | Some q =>
            if buf >? umul q limit then randInt_from limit buf rest
            else Returned (umod buf limit) errno rest
        end
  end.

(** [size_t randInt(size_t const limit)] *)
Definition randInt (limit : Z) (s : entropy) : outcome :=
  randInt_from limit 0 s.

(** *** The algorithm as the specification words it *)

(** Step 1. *)
Definition WORD_MAX : Z := 2 ^ 64 - 1.

(** Step 2: the largest multiple of [limit] not exceeding [WORD_MAX]. *)
Definition threshold (limit : Z) : Z := (WORD_MAX / limit) * limit.

(** Steps 3 to 5 over the full-width words drawn from the source: a word
    above the threshold is discarded and the next one drawn, any other
    word is reduced modulo [limit].  [None] when the words run out. *)
Fixpoint spec_randInt (limit : Z) (words : list Z) : option (Z * list Z) :=
  match words with
  | [] => None
  | buf :: rest =>
      if buf >? threshold limit then spec_randInt limit rest
      else Some (buf mod limit, rest)
  end.

(** The outcome of the code that corresponds to a result of the steps. *)
Definition of_spec (r : option (Z * list Z)) : outcome :=
  match r with
  | Some (v, rest) => Returned v 0 (map GRFull rest)
  | None => Starved
  end.

(** *** Counting accepted words *)

(** The words [0, 1, ..., n-1]. *)
Definition words_below (n : nat) : list Z := map Z.of_nat (seq 0 n).

(** Every value a [size_t] can hold. *)
Definition all_words : list Z := words_below (Z.to_nat (MAX + 1)).

(** The test [randInt] applies to a full read: kept, and reduced to [k]. *)
Definition accepted_as (limit k buf : Z) : bool :=
  match udiv MAX limit with
  | None => false
  | Some q => negb (buf >? umul q limit) && (umod buf limit =? k)
  end.

(** Number of words that [randInt limit] turns into the index [k]. *)
Definition accepted_count (limit k : Z) : Z :=
  Z.of_nat (List.length (filter (accepted_as limit k) all_words)).

(** *** Results that end a call *)

(** The results on which [randInt limit] returns instead of calling
    [getrandom] again: a call that set [errno], or a full read of a word
    that is kept. *)
Definition settles (limit : Z) (d : getrandom_result) : bool :=
  match d with
  | GRRead n w => (n =? SIZEOF_BUF) && negb (w >? umul (MAX / limit) limit)
  | GRError e => negb (e =? 0)
  end.

(** A failed call is retried when [randInt] goes on as if the call had not
    been made: the draw is made again and decides the result. *)
Definition retries_after (e : Z) (limit : Z) (s : entropy) : Prop :=
  randInt limit (GRError e :: s) = randInt limit s.

End RandInt.

(* ------------------------------------------------------------------ *)
(** ** The C library functions [main] relies on *)

Module Libc.

(** [s[i]] for a C string: the terminating NUL sits right after the
    characters. *)
Definition char_at (s : string) (i : nat) : ascii :=
  match String.get i s with
  | Some c => c
  | None => zero
  end.

(** [<limits.h>], [long] of 64 bits. *)
Definition LONG_MAX : Z := 2 ^ 63 - 1.
Definition LONG_MIN : Z := - 2 ^ 63.

(** [<errno.h>] *)
Definition ERANGE : Z := 34.

(** [isspace] in the C locale. *)
Definition isspace (c : ascii) : bool :=
  let n := nat_of_ascii c in
  (n =? 32)%nat || ((9 <=? n)%nat && (n <=? 13)%nat).

Definition digit_value (c : ascii) : option Z :=
  let n := Z.of_nat (nat_of_ascii c) in
  if (48 <=? n) && (n <=? 57) then Some (n - 48) else None.

Fixpoint skip_spaces (s : string) : string :=
  match s with
  | String c s' => if isspace c then skip_spaces s' else s
  | EmptyString => s
  end.

(** The longest run of decimal digits at the head of [s]: its value and
    whether it holds a digit at all. *)
Fixpoint read_digits (acc : Z) (seen : bool) (s : string) : Z * bool :=
  match s with
  | String c s' =>
      match digit_value c with
      | Some d => read_digits (10 * acc + d) true s'
      | None => (acc, seen)
      end
  | EmptyString => (acc, seen)
  end.

(** [strtol(nptr, NULL, 10)], called with [errno] zero: the pair of the
    value returned and [errno] afterwards.  As ISO C has it (7.22.1.4) and
    glibc and musl implement it: white space is skipped, a sign is optional,
    the digits that follow are converted; with no digit there is no
    conversion, [0] is returned and [errno] is left as it was; a value
    outside [long] is clamped and [errno] becomes [ERANGE]. *)
Definition strtol (nptr : string) : Z * Z :=
  let s := skip_spaces nptr in
  let '(negative, s) :=
    match s with
    | String "-"%char s' => (true, s')
    | String "+"%char s' => (false, s')
    | _ => (false, s)
    end in
  let '(magnitude, seen) := read_digits 0 false s in
  if negb seen then (0, 0)
  else
    let v := if negative then - magnitude else magnitude in
    if v >? LONG_MAX then (LONG_MAX, ERANGE)
    else if v <? LONG_MIN then (LONG_MIN, ERANGE)
    else (v, 0).

(** [calloc(n, 1)]: a block of [n] zero bytes. *)
Definition calloc (n : Z) : list ascii := repeat zero (Z.to_nat n).

(** Bytes stored from offset [off] on.  A store that runs past the end of
    the block lands in the bytes that follow it. *)
Fixpoint store (mem : list ascii) (off : nat) (bytes : list ascii)
  : list ascii :=
  match off with
  | O => bytes ++ skipn (List.length bytes) mem
  | S off' =>
      match mem with
      | [] => zero :: store [] off' bytes
      | c :: mem' => c :: store mem' off' bytes
      end
  end.

(** [strcpy(mem + off, src)]: the characters of [src] and the terminating
    NUL. *)
Definition strcpy (mem : list ascii) (off : nat) (src : string) : list ascii :=
  store mem off (list_ascii_of_string src ++ [zero]).

(** The C string held at the start of [mem]. *)
Fixpoint c_string (mem : list ascii) : string :=
  match mem with
  | [] => EmptyString
  | c :: mem' => if Ascii.eqb c zero then EmptyString else String c (c_string mem')
  end.

Definition newline : string := String (ascii_of_nat 10) EmptyString.

(** [puts(s)] writes the string and a newline. *)
Definition puts (mem : list ascii) : string :=
  (c_string mem ++ newline)%string.

End Libc.

(* ------------------------------------------------------------------ *)
(** ** Command line *)

Module Cli.
Import Libc.

Local Open Scope string_scope.

Inductive Option_ : Type :=
| OPTION_LOWER_ENABLE
| OPTION_LOWER_DISABLE
| OPTION_UPPER_ENABLE
| OPTION_UPPER_DISABLE
| OPTION_NUMBER_ENABLE
| OPTION_NUMBER_DISABLE
| OPTION_SYMBOL_ENABLE
| OPTION_SYMBOL_DISABLE
| OPTION_HELP
| OPTION_UNRECOGNIZED.

Definition parseLongOption (arg : string) : Option_ :=
  if arg =? "--help" then OPTION_HELP
  else if arg =? "--enable-lower" then OPTION_LOWER_ENABLE
  else if arg =? "--enable-upper" then OPTION_UPPER_ENABLE
  else if arg =? "--enable-number" then OPTION_NUMBER_ENABLE
  else if arg =? "--enable-symbol" then OPTION_SYMBOL_ENABLE
  else if arg =? "--disable-lower" then OPTION_LOWER_DISABLE
  else if arg =? "--disable-upper" then OPTION_UPPER_DISABLE
  else if arg =? "--disable-number" then OPTION_NUMBER_DISABLE
  else if arg =? "--disable-symbol" then OPTION_SYMBOL_DISABLE
  else OPTION_UNRECOGNIZED.

(** [if (!arg[2]) return o; break;] *)
Definition short_option (arg : string) (o : Option_) : Option_ :=
  if Ascii.eqb (char_at arg 2) zero then o else OPTION_UNRECOGNIZED.

Definition parseOption (arg : string) : Option_ :=
  match char_at arg 0 with
  | "+"%char =>
      match char_at arg 1 with
      | "l"%char => short_option arg OPTION_LOWER_ENABLE
      | "u"%char => short_option arg OPTION_UPPER_ENABLE
      | "n"%char => short_option arg OPTION_NUMBER_ENABLE
      | "s"%char => short_option arg OPTION_SYMBOL_ENABLE
      | _ => OPTION_UNRECOGNIZED
      end
  | "-"%char =>
      match char_at arg 1 with
      | "-"%char => parseLongOption arg
      | "l"%char => short_option arg OPTION_LOWER_DISABLE
      | "u"%char => short_option arg OPTION_UPPER_DISABLE
      | "n"%char => short_option arg OPTION_NUMBER_DISABLE
      | "s"%char => short_option arg OPTION_SYMBOL_DISABLE
      | _ => OPTION_UNRECOGNIZED
      end
  | _ => OPTION_UNRECOGNIZED
  end.

End Cli.

(* ------------------------------------------------------------------ *)
(** ** [main] *)

Module Passgen.
Import Word Entropy RandInt Libc Cli.

(** The text of [printHelp]. *)
Definition HELP_TEXT : string :=
"NAME
	passgen - password generator

SYNOPSIS
	passgen [OPTION...] [LENGTH]

DESCRIPTION
	Generate cryptographically secure passwords of LENGTH characters,
	default length is 22.

OPTIONS
	+l, --enable-lower
		enables lowercase letters to be generated, default
	-l, --disable-lower
		disables lowercase letters
	+u, --enable-upper
		enables uppercase letters to be generated, default
	-u, --disable-upper
		disables uppercase letters
	+n, --enable-number
		enables numbers to be generated, default
	-n, --disable-number
		disables numbers
	+s, --enable-symbol
		enables symbols to be generated
	-s, --disable-symbol
		disables symbols, default
	--help
		prints this message
".

Definition LOWERS : string := "abcdefghijklmnopqrstuvwxyz".
Definition LOWERS_LEN : Z := 26.
Definition UPPERS : string := "ABCDEFGHIJKLMNOPQRSTUVWXYZ".
Definition UPPERS_LEN : Z := 26.
Definition NUMBERS : string := "0123456789".
Definition NUMBERS_LEN : Z := 10.
(** The second character is the double quote, the twenty-fourth the
    backslash. *)
Definition SYMBOLS : string :=
  String "!" (String (ascii_of_nat 34) "#$%&'()*+,-./:;<=>?@[\]^_`{|}~").
Definition SYMBOLS_LEN : Z := 32.

Definition PASS_LEN_DEFAULT : Z := 22.

(** What the program writes to standard error. *)
Inductive err_write : Type :=
| Fputs (s : string)
    (** [fputs(s, stderr)] and [putc] *)
| Perror (s : string) (errno : Z).
    (** [perror(s)]: [s], a colon and the message of [errno] *)

(** The variables of [main] the flag loop works on, and standard error. *)
Record settings : Type := mkSettings {
  enableLower : bool;
  enableUpper : bool;
  enableNumber : bool;
  enableSymbol : bool;
  passLen : Z;
  stderr : list err_write
}.

Definition defaults : settings :=
  mkSettings true true true false PASS_LEN_DEFAULT [].

Definition set_lower (b : bool) (st : settings) : settings :=
  mkSettings b (enableUpper st) (enableNumber st) (enableSymbol st)
    (passLen st) (stderr st).
Definition set_upper (b : bool) (st : settings) : settings :=
  mkSettings (enableLower st) b (enableNumber st) (enableSymbol st)
    (passLen st) (stderr st).
Definition set_number (b : bool) (st : settings) : settings :=
  mkSettings (enableLower st) (enableUpper st) b (enableSymbol st)
    (passLen st) (stderr st).
Definition set_symbol (b : bool) (st : settings) : settings :=
  mkSettings (enableLower st) (enableUpper st) (enableNumber st) b
    (passLen st) (stderr st).
Definition set_passLen (n : Z) (st : settings) : settings :=
  mkSettings (enableLower st) (enableUpper st) (enableNumber st)
    (enableSymbol st) n (stderr st).
Definition write_err (w : list err_write) (st : settings) : settings :=
  mkSettings (enableLower st) (enableUpper st) (enableNumber st)
    (enableSymbol st) (passLen st) (stderr st ++ w).

(** The three writes under the label [badOpt]. *)
Definition badOpt (option : string) : list err_write :=
  [Fputs "Unrecognized option: "; Fputs option; Fputs newline].

(** How the flag loop is left. *)
Inductive flow : Type :=
| Proceed (st : settings)
    (** the loop ran to its end *)
| GotoExit (st : settings).
    (** [goto exit] after [printHelp] *)

(** The loop [for (size_t i = 1; i < argc; ++i)] over the arguments still
    to be read; [i == argc-1] holds when none follows. *)
Fixpoint handle_flags (args : list string) (st : settings) : flow :=
  match args with
  | [] => Proceed st
  | option :: rest =>
      match parseOption option with
      | OPTION_LOWER_ENABLE => handle_flags rest (set_lower true st)
      | OPTION_LOWER_DISABLE => handle_flags rest (set_lower false st)
      | OPTION_UPPER_ENABLE => handle_flags rest (set_upper true st)
      | OPTION_UPPER_DISABLE => handle_flags rest (set_upper false st)
      | OPTION_NUMBER_ENABLE => handle_flags rest (set_number true st)
      | OPTION_NUMBER_DISABLE => handle_flags rest (set_number false st)
      | OPTION_SYMBOL_ENABLE => handle_flags rest (set_symbol true st)
      | OPTION_SYMBOL_DISABLE => handle_flags rest (set_symbol false st)
      | OPTION_HELP => GotoExit (write_err [Fputs HELP_TEXT] st)
      | OPTION_UNRECOGNIZED =>
          match rest with
          | [] =>
              let '(value, errno) := strtol option in
              if negb (errno =? 0) then
                handle_flags rest
                  (write_err (badOpt option) (set_passLen PASS_LEN_DEFAULT st))
              else handle_flags rest (set_passLen (wrap value) st)
          | _ :: _ => handle_flags rest (write_err (badOpt option) st)
          end
      end
  end.

(** [passCharsLen], summed class by class. *)
Definition count_passChars (st : settings) : Z :=
  let passCharsLen := 0 in
  let passCharsLen :=
    if enableLower st then uadd passCharsLen LOWERS_LEN else passCharsLen in
  let passCharsLen :=
    if enableUpper st then uadd passCharsLen UPPERS_LEN else passCharsLen in
  let passCharsLen :=
    if enableNumber st then uadd passCharsLen NUMBERS_LEN else passCharsLen in
  let passCharsLen :=
    if enableSymbol st then uadd passCharsLen SYMBOLS_LEN else passCharsLen in
  passCharsLen.

(** One [if (enable) { strcpy(start, CLASS); start += CLASS_LEN; }]. *)
Definition copy_class (enable : bool) (class : string) (len : Z)
  (ms : list ascii * nat) : list ascii * nat :=
  let '(mem, start) := ms in
  if enable then (strcpy mem start class, (start + Z.to_nat len)%nat)
  else (mem, start).

(** The block [passChars] after the four copies.  Each [strcpy] also writes
    the terminating NUL of its class: the next copy overwrites it, and the
    NUL of the last copy lands on the byte after the [passCharsLen] bytes
    of the block. *)
Definition fill_passChars (st : settings) : list ascii :=
  let ms := (calloc (count_passChars st), O) in
  let ms := copy_class (enableLower st) LOWERS LOWERS_LEN ms in
  let ms := copy_class (enableUpper st) UPPERS UPPERS_LEN ms in
  let ms := copy_class (enableNumber st) NUMBERS NUMBERS_LEN ms in
  let ms := copy_class (enableSymbol st) SYMBOLS SYMBOLS_LEN ms in
  fst ms.

(** The valid characters: the [passCharsLen] bytes of the block. *)
Definition alphabet (st : settings) : list ascii :=
  firstn (Z.to_nat (count_passChars st)) (fill_passChars st).

(** How the selection loop is left. *)
Inductive selection : Type :=
| Selected (password : list ascii) (rest : entropy)
    (** all positions filled *)
| SelectFailed (password : list ascii) (errno : Z) (rest : entropy)
    (** [goto cleanup] with [errno] set, the positions filled so far *)
| SelectDivByZero
| SelectStarved.

(** [n] more rounds of [for (size_t i = 0; i < passLen; ++i)]; [password]
    is [password[0..i)]. *)
Fixpoint select (passChars : list ascii) (passCharsLen : Z) (n : nat)
  (password : list ascii) (s : entropy) : selection :=
  match n with
  | O => Selected password s
  | S n' =>
      match randInt passCharsLen s with
      | Returned r errno rest =>
          if negb (errno =? 0) then SelectFailed password errno rest
          else
            select passChars passCharsLen n'
              (password ++ [nth (Z.to_nat r) passChars zero]) rest
      | DivByZero => SelectDivByZero
      | Starved => SelectStarved
      end
  end.

(** What [calloc] returned: the null pointer, or a block of [size]
    bytes. *)
Inductive pointer : Type :=
| Null
| Block (size : Z).

(** [calloc(n, 1)] in a run where the allocator grants a request of [n]
    bytes exactly when [heap n] holds. *)
Definition calloc_ptr (heap : Z -> bool) (n : Z) : pointer :=
  if heap n then Block n else Null.

(** [<stdint.h>] *)
Definition PTRDIFF_MAX : Z := 2 ^ 63 - 1.

(** The allocator [main] is taken to run with: as glibc does, it refuses
    every request above [PTRDIFF_MAX]; every other request is granted. *)
Definition default_heap (n : Z) : bool := n <=? PTRDIFF_MAX.

(** The copies into [passChars] go through the pointer when a class is
    enabled; through the null pointer they fault. *)
Definition copies_valid (passChars : pointer) (st : settings) : bool :=
  match passChars with
  | Block _ => true
  | Null =>
      negb (enableLower st || enableUpper st || enableNumber st ||
            enableSymbol st)
  end.

(** [p[i]] is a byte of the block. *)
Definition in_block (p : pointer) (i : Z) : bool :=
  match p with
  | Block size => (0 <=? i) && (i <? size)
  | Null => false
  end.

(** The [n] bytes from [p] on are bytes of the block, as [memset(p, 0, n)]
    needs. *)
Definition range_in_block (p : pointer) (n : Z) : bool :=
  match p with
  | Block size => (0 <=? n) && (n <=? size)
  | Null => false
  end.

(** How a run of the program ends. *)
Inductive run : Type :=
| Exited (status : Z) (stdout : string) (err : list err_write)
    (rest : entropy)
| Crashed (err : list err_write)
    (** division by zero in [randInt] *)
| Waiting (err : list err_write)
    (** the script of the entropy source ended first *)
| Faulted (stdout : string).
    (** a store through the null pointer or outside its block, after
        [stdout] was written: the behaviour is undefined from there on,
        in practice the process is killed by a signal *)

(** [int main(int argc, char **argv)], over [argv] and the entropy source,
    with the allocator [heap].
    - [passChars = calloc(passCharsLen, ...)], then the copies;
    - [password = calloc(passLen+1, ...)], the sum taken in [size_t], then
      [password[passLen] = 0]: a fault when the allocation was refused or
      when [passLen+1] wrapped to 0;
    - the selection loop, whose stores [password[i]], [i < passLen], lie in
      the block once [password[passLen]] does;
    - [puts], and under [cleanup] [memset(password, 0, passLen)]. *)
Definition run_main (heap : Z -> bool) (argv : list string) (s : entropy)
  : run :=
  match handle_flags (tl argv) defaults with
  | GotoExit st => Exited 0 EmptyString (stderr st) s
  | Proceed st =>
      let passCharsLen := count_passChars st in
      let passChars_ptr := calloc_ptr heap passCharsLen in
      if negb (copies_valid passChars_ptr st) then Faulted EmptyString
      else
        let passChars := fill_passChars st in
        let password_ptr := calloc_ptr heap (uadd (passLen st) 1) in
        if negb (in_block password_ptr (passLen st)) then Faulted EmptyString
        else
          match
            select passChars passCharsLen (Z.to_nat (passLen st)) [] s
          with
          | Selected password rest =>
              let out := puts (password ++ [zero]) in
              if range_in_block password_ptr (passLen st)
              then Exited 0 out (stderr st) rest
              else Faulted out
          | SelectFailed _ errno rest =>
              if range_in_block password_ptr (passLen st)
              then
                Exited 0 EmptyString
                  (stderr st ++ [Perror "Failed to get random" errno]) rest
              else Faulted EmptyString
          | SelectDivByZero => Crashed (stderr st)
          | SelectStarved => Waiting (stderr st)
          end
  end.

(** The program, run with [default_heap]. *)
Definition main (argv : list string) (s : entropy) : run :=
  run_main default_heap argv s.

(** What reached standard output. *)
Definition stdout_of (r : run) : string :=
  match r with
  | Exited _ out _ _ => out
  | Crashed _ | Waiting _ => EmptyString
  | Faulted out => out
  end.

(** Both allocations of the run were granted and [passLen + 1] did not
    wrap: no store of [main] leaves its block. *)
Definition allocations_hold (heap : Z -> bool) (st : settings) : bool :=
  copies_valid (calloc_ptr heap (count_passChars st)) st &&
  in_block (calloc_ptr heap (uadd (passLen st) 1)) (passLen st).

End Passgen.

(* ------------------------------------------------------------------ *)
(** ** Vocabulary for the properties *)

Module Notions.
Import Word Entropy RandInt Libc Cli Passgen.

Local Open Scope string_scope.

(** An argument as [argv] holds it: the characters before the terminating
    NUL, none of them NUL. *)
Fixpoint is_c_string (s : string) : bool :=
  match s with
  | EmptyString => true
  | String c s' => negb (Ascii.eqb c zero) && is_c_string s'
  end.

(** The spellings of each option: the [case] labels of [parseOption] and
    the strings [parseLongOption] compares with. *)
Definition spellings (o : Option_) : list string :=
  match o with
  | OPTION_LOWER_ENABLE => ["+l"; "--enable-lower"]
  | OPTION_LOWER_DISABLE => ["-l"; "--disable-lower"]
  | OPTION_UPPER_ENABLE => ["+u"; "--enable-upper"]
  | OPTION_UPPER_DISABLE => ["-u"; "--disable-upper"]
  | OPTION_NUMBER_ENABLE => ["+n"; "--enable-number"]
  | OPTION_NUMBER_DISABLE => ["-n"; "--disable-number"]
  | OPTION_SYMBOL_ENABLE => ["+s"; "--enable-symbol"]
  | OPTION_SYMBOL_DISABLE => ["-s"; "--disable-symbol"]
  | OPTION_HELP => ["--help"]
  | OPTION_UNRECOGNIZED => []
  end.

(** [occurs needle hay]: [needle] is a substring of [hay]. *)
Fixpoint occurs (needle hay : string) : bool :=
  String.prefix needle hay ||
  match hay with
  | EmptyString => false
  | String _ hay' => occurs needle hay'
  end.

Definition tab : string := String (ascii_of_nat 9) EmptyString.

(** The line of the help text for an option: a tab, the spellings
    separated by a comma and a space, a newline. *)
Definition help_entry (o : Option_) : string :=
  tab ++ String.concat ", " (spellings o) ++ newline.

(** The four character classes and the flag of [main] each one has. *)
Inductive char_class : Type := Lower | Upper | Number | Symbol.

Definition enabled (c : char_class) (st : settings) : bool :=
  match c with
  | Lower => enableLower st
  | Upper => enableUpper st
  | Number => enableNumber st
  | Symbol => enableSymbol st
  end.

(** The assignment the [switch] of the flag loop makes for an option. *)
Definition assigns (o : Option_) : option (char_class * bool) :=
  match o with
  | OPTION_LOWER_ENABLE => Some (Lower, true)
  | OPTION_LOWER_DISABLE => Some (Lower, false)
  | OPTION_UPPER_ENABLE => Some (Upper, true)
  | OPTION_UPPER_DISABLE => Some (Upper, false)
  | OPTION_NUMBER_ENABLE => Some (Number, true)
  | OPTION_NUMBER_DISABLE => Some (Number, false)
  | OPTION_SYMBOL_ENABLE => Some (Symbol, true)
  | OPTION_SYMBOL_DISABLE => Some (Symbol, false)
  | OPTION_HELP | OPTION_UNRECOGNIZED => None
  end.

(** [touches c arg]: the argument assigns the flag of the class [c]. *)
Definition touches (c : char_class) (arg : string) : Prop :=
  exists b, assigns (parseOption arg) = Some (c, b).

(** No element occurs twice. *)
Fixpoint distinct (l : list ascii) : bool :=
  match l with
  | [] => true
  | c :: l' => negb (existsb (Ascii.eqb c) l') && distinct l'
  end.

(** The test of [randInt] that sends a full read back to [restart]. *)
Definition discarded (limit buf : Z) : bool :=
  match udiv MAX limit with
  | None => false
  | Some q => buf >? umul q limit
  end.

(** Number of words that [randInt limit] discards. *)
Definition discarded_count (limit : Z) : Z :=
  Z.of_nat (List.length (filter (discarded limit) all_words)).

(** What [randInt limit] returns on a result that ends the call: the value
    and [errno]. *)
Definition settled_value (limit : Z) (d : getrandom_result) : Z * Z :=
  match d with
  | GRRead _ w => (w mod limit, 0)
  | GRError e => (0, e)
  end.

(** The character the selection loop stores for a kept word. *)
Definition pick (passChars : list ascii) (passCharsLen : Z) (w : Z) : ascii :=
  nth (Z.to_nat (w mod passCharsLen)) passChars zero.

End Notions.

(* ------------------------------------------------------------------ *)
(** * Properties of [randInt] *)

Section RandIntFacts.
Import Word Entropy RandInt.

Lemma MAX_value : MAX = 2 ^ 64 - 1.
Proof. reflexivity. Qed.

Lemma WORD_MAX_is_MAX : WORD_MAX = MAX.
Proof. reflexivity. Qed.

Lemma udiv_pos (a b : Z) : b <> 0 -> udiv a b = Some (a / b).
Proof.
  intros Hb. unfold udiv.
  destruct (Z.eqb_spec b 0) as [E | _]; [contradiction | reflexivity].
Qed.

(** The product [MAX / limit * limit] never wraps. *)
Lemma threshold_no_wrap (limit : Z) :
  0 < limit -> umul (MAX / limit) limit = MAX / limit * limit.
Proof.
  intros Hl. unfold umul, wrap.
  apply Z.mod_small.
  assert (Hq : 0 <= MAX / limit) by (apply Z.div_pos; [rewrite MAX_value |]; lia).
  assert (Hle : limit * (MAX / limit) <= MAX)
    by (apply Z.mul_div_le; lia).
  rewrite MAX_value in *. unfold modulus, SIZE_BITS. nia.
Qed.

Lemma threshold_le_MAX (limit : Z) :
  0 < limit -> 0 <= MAX / limit * limit <= MAX.
Proof.
  intros Hl.
  assert (Hq : 0 <= MAX / limit) by (apply Z.div_pos; [rewrite MAX_value |]; lia).
  assert (Hle : limit * (MAX / limit) <= MAX)
    by (apply Z.mul_div_le; lia).
  nia.
Qed.

(** The value [buf] has on entry is never read. *)
Lemma randInt_from_buf (limit : Z) (s : entropy) :
  forall b, randInt_from limit b s = randInt_from limit 0 s.
Proof.
  induction s as [| d s IH]; intros b; [reflexivity |].
  destruct d as [n w | e]; cbn [randInt_from getrandom].
  - reflexivity.
  - destruct (e =? 0); cbn; [| reflexivity].
    rewrite (IH b). reflexivity.
Qed.

(** A read of any other size than [sizeof (buf)] sends the [for] loop
    round again. *)
Lemma randInt_short (limit n w : Z) (s : entropy) :
  n <> SIZEOF_BUF -> randInt limit (GRRead n w :: s) = randInt limit s.
Proof.
  intros Hn. unfold randInt. cbn [randInt_from getrandom].
  destruct (Z.eqb_spec n SIZEOF_BUF) as [E | _]; [contradiction |].
  cbn [negb andb Z.eqb]. apply randInt_from_buf.
Qed.

(** A call that sets [errno] ends [randInt] at [if (errno) return 0]. *)
Lemma randInt_error (limit e : Z) (s : entropy) :
  e <> 0 -> randInt limit (GRError e :: s) = Returned 0 e s.
Proof.
  intros He. unfold randInt. cbn [randInt_from getrandom].
  destruct (Z.eqb_spec e 0) as [E | _]; [contradiction |].
  rewrite andb_false_r. reflexivity.
Qed.

(** A full read, for a non-zero [limit]. *)
Lemma randInt_full (limit w : Z) (s : entropy) :
  limit <> 0 ->
  randInt limit (GRFull w :: s) =
    if w >? umul (MAX / limit) limit then randInt limit s
    else Returned (w mod limit) 0 s.
Proof.
  intros Hl. unfold randInt, GRFull. cbn [randInt_from getrandom].
  rewrite Z.eqb_refl. cbn [negb andb Z.eqb].
  rewrite (udiv_pos _ _ Hl).
  destruct (w >? umul (MAX / limit) limit); [apply randInt_from_buf |].
  reflexivity.
Qed.

(** A full read, for [limit] zero. *)
Lemma randInt_full_zero (w : Z) (s : entropy) :
  randInt 0 (GRFull w :: s) = DivByZero.
Proof. reflexivity. Qed.

(** One step of [randInt], whatever the result of the call. *)
Lemma randInt_cons (limit : Z) (d : getrandom_result) (s : entropy) :
  limit <> 0 ->
  randInt limit (d :: s) =
    match d with
    | GRError e => if e =? 0 then randInt limit s else Returned 0 e s
    | GRRead n w =>
        if n =? SIZEOF_BUF then
          if w >? umul (MAX / limit) limit then randInt limit s
          else Returned (w mod limit) 0 s
        else randInt limit s
    end.
Proof.
  intros Hl. destruct d as [n w | e].
  - destruct (Z.eqb_spec n SIZEOF_BUF) as [-> | Hn].
    + apply (randInt_full limit w s Hl).
    + apply randInt_short; assumption.
  - destruct (Z.eqb_spec e 0) as [-> | He].
    + unfold randInt. cbn [randInt_from getrandom].
      cbn. apply randInt_from_buf.
    + apply randInt_error; assumption.
Qed.

End RandIntFacts.

Section RandIntClaims.
Import Word Entropy RandInt.

Lemma randInt_returns (limit : Z) (s : entropy) :
  limit <> 0 ->
  existsb (settles limit) s = true ->
  exists r errno rest, randInt limit s = Returned r errno rest.
Proof.
  intros Hl. induction s as [| d s IH]; cbn [existsb]; [discriminate |].
  intros H. rewrite (randInt_cons limit d s Hl).
  destruct d as [n w | e]; cbn [settles] in H.
  - destruct (n =? SIZEOF_BUF); cbn [andb] in H.
    + destruct (w >? umul (MAX / limit) limit); cbn [negb orb] in H.
      * apply IH, H.
      * eauto.
    + apply IH, H.
  - destruct (e =? 0); cbn [negb orb] in H.
    + apply IH, H.
    + eauto.
Qed.

Lemma randInt_value_bound (limit : Z) (s : entropy) :
  0 < limit ->
  forall r errno rest,
    randInt limit s = Returned r errno rest -> 0 <= r < limit.
Proof.
  intros Hl. assert (Hnz : limit <> 0) by lia.
  induction s as [| d s IH]; intros r errno rest; [discriminate |].
  rewrite (randInt_cons limit d s Hnz).
  destruct d as [n w | e].
  - destruct (n =? SIZEOF_BUF); [| apply IH].
    destruct (w >? umul (MAX / limit) limit); [apply IH |].
    intros [= <- _ _]. apply Z.mod_pos_bound; assumption.
  - destruct (e =? 0); [apply IH |].
    intros [= <- _ _]. lia.
Qed.

(** C2. For every [limit > 0]: as soon as the entropy source delivers a
    result that ends the drawing, [randInt] returns; and whatever it returns
    is a value [r] with [0 <= r < limit]. *)
Theorem randInt_in_range (limit : Z) (s : entropy) :
  0 < limit ->
  (existsb (settles limit) s = true ->
   exists r errno rest, randInt limit s = Returned r errno rest) /\
  (forall r errno rest,
     randInt limit s = Returned r errno rest -> 0 <= r < limit).
Proof.
  intros Hl. split.
  - apply randInt_returns; lia.
  - apply randInt_value_bound; assumption.
Qed.

Lemma randInt_in_range_witness :
  0 < 62 /\
  (exists r errno rest,
     randInt 62 [GRRead 3 0; GRFull (MAX - 1); GRFull 130] =
       Returned r errno rest) /\
  (forall r errno rest,
     randInt 62 [GRRead 3 0; GRFull (MAX - 1); GRFull 130] =
       Returned r errno rest -> 0 <= r < 62).
Proof.
  split; [lia |].
  split.
  - apply (randInt_in_range 62 [GRRead 3 0; GRFull (MAX - 1); GRFull 130]);
      [lia | reflexivity].
  - apply (randInt_in_range 62 [GRRead 3 0; GRFull (MAX - 1); GRFull 130]);
      lia.
Defined.

(** C3. For every [limit > 0] and every sequence of full-width words
    drawn from the source, [randInt] does what steps 1 to 5 of the
    specification say: with [threshold = floor(WORD_MAX / limit) * limit],
    a word above the threshold is discarded and the next one drawn, any
    other word is returned modulo [limit]. *)
Theorem randInt_refines_spec (limit : Z) (words : list Z) :
  0 < limit ->
  randInt limit (map GRFull words) = of_spec (spec_randInt limit words).
Proof.
  intros Hl. assert (Hnz : limit <> 0) by lia.
  induction words as [| buf rest IH]; [reflexivity |].
  cbn [map spec_randInt].
  rewrite (randInt_full limit buf _ Hnz).
  rewrite (threshold_no_wrap limit Hl).
  unfold threshold. rewrite WORD_MAX_is_MAX.
  destruct (buf >? MAX / limit * limit); [exact IH | reflexivity].
Qed.

Lemma randInt_refines_spec_witness :
  0 < 7 /\
  randInt 7 (map GRFull [MAX; 23; 4]) =
    of_spec (spec_randInt 7 [MAX; 23; 4]).
Proof.
  split; [lia |].
  apply (randInt_refines_spec 7 [MAX; 23; 4]).
  lia.
Defined.

(** C5, as stated, fails: a call interrupted by a signal ([EINTR]) is not
    made again; [randInt] returns 0 with [errno] set, the full read that
    would have followed is left unread. *)
Lemma randInt_EINTR_not_retried :
  randInt 7 [GRError EINTR; GRFull 5] = Returned 0 EINTR [GRFull 5] /\
  randInt 7 [GRFull 5] = Returned 5 0 [] /\
  ~ retries_after EINTR 7 [GRFull 5].
Proof.
  split; [reflexivity |]. split; [reflexivity |].
  unfold retries_after. discriminate.
Qed.

(** C5, amended. [randInt] draws again only after a call that returned a
    byte count other than [sizeof (buf)] and left [errno] zero (a short
    read); any call that sets [errno], an interrupted one included, ends
    [randInt], which returns 0 and leaves [errno] set. *)
Theorem randInt_retry_policy (limit : Z) (s : entropy) :
  (forall n w, n <> SIZEOF_BUF ->
     randInt limit (GRRead n w :: s) = randInt limit s) /\
  (forall e, e <> 0 -> randInt limit (GRError e :: s) = Returned 0 e s).
Proof.
  split.
  - intros n w Hn. apply randInt_short; assumption.
  - intros e He. apply randInt_error; assumption.
Qed.

Lemma randInt_retry_policy_witness :
  (3 <> SIZEOF_BUF /\
   randInt 7 (GRRead 3 99 :: [GRFull 5]) = randInt 7 [GRFull 5]) /\
  (EINTR <> 0 /\
   randInt 7 (GRError EINTR :: [GRFull 5]) = Returned 0 EINTR [GRFull 5]).
Proof.
  split; (split; [discriminate |]).
  - apply (proj1 (randInt_retry_policy 7 [GRFull 5])). discriminate.
  - apply (proj2 (randInt_retry_policy 7 [GRFull 5])). discriminate.
Defined.

(** C10. When a call of [getrandom] sets [errno], [randInt] returns 0 and
    the failure shows in [errno] alone: 0 lies in [[0, limit)] and is also
    what a full read of the word 0 makes [randInt] return, with [errno]
    zero. *)
Theorem randInt_failure_returns_zero (limit e : Z) (s : entropy) :
  0 < limit -> e <> 0 ->
  randInt limit (GRError e :: s) = Returned 0 e s /\
  0 <= 0 < limit /\
  randInt limit (GRFull 0 :: s) = Returned 0 0 s.
Proof.
  intros Hl He. split; [apply randInt_error; assumption |].
  split; [lia |].
  rewrite randInt_full by lia.
  rewrite (threshold_no_wrap limit Hl).
  pose proof (threshold_le_MAX limit Hl) as [H0 _].
  destruct (Z.gtb_spec 0 (MAX / limit * limit)) as [Hgt | _]; [lia |].
  rewrite Z.mod_0_l by lia. reflexivity.
Qed.

Lemma randInt_failure_returns_zero_witness :
  (0 < 62 /\ ENOSYS <> 0) /\
  randInt 62 (GRError ENOSYS :: []) = Returned 0 ENOSYS [] /\
  0 <= 0 < 62 /\
  randInt 62 (GRFull 0 :: []) = Returned 0 0 [].
Proof.
  split; [split; [lia | discriminate] |].
  apply (randInt_failure_returns_zero 62 ENOSYS []);
    [lia | discriminate].
Defined.

End RandIntClaims.

(* ------------------------------------------------------------------ *)
(** * How many words each index receives *)

Section Counting.
Import Word Entropy RandInt.

Lemma words_below_S (n : nat) :
  words_below (S n) = words_below n ++ [Z.of_nat n].
Proof.
  unfold words_below. rewrite seq_S, map_app. reflexivity.
Qed.

Lemma words_below_range (n : nat) (x : Z) :
  In x (words_below n) -> 0 <= x < Z.of_nat n.
Proof.
  unfold words_below. rewrite in_map_iff.
  intros [i [<- Hi]]. apply in_seq in Hi. lia.
Qed.

(** Among the numbers below [n], adding [n] itself adds one to the count
    of those congruent to [k] exactly when [n] is. *)
Lemma residue_step (m k n : Z) :
  0 < m -> 0 <= k < m -> 0 <= n ->
  (n + 1 + m - 1 - k) / m =
    (n + m - 1 - k) / m + (if n mod m =? k then 1 else 0).
Proof.
  intros Hm Hk Hn.
  pose proof (Z.div_mod n m ltac:(lia)) as Hdm.
  pose proof (Z.mod_pos_bound n m Hm) as Hb.
  set (a := n / m) in *. set (b := n mod m) in *.
  destruct (Z.eqb_spec b k) as [E | NE].
  - replace (n + 1 + m - 1 - k) with ((a + 1) * m + 0) by lia.
    replace (n + m - 1 - k) with (a * m + (m - 1)) by lia.
    rewrite !Z.div_add_l by lia.
    rewrite Z.div_small by lia. rewrite Z.div_small by lia. lia.
  - destruct (Z.lt_ge_cases b k) as [Hlt | Hge].
    + replace (n + 1 + m - 1 - k) with (a * m + (b + m - k)) by lia.
      replace (n + m - 1 - k) with (a * m + (b + m - 1 - k)) by lia.
      rewrite !Z.div_add_l by lia.
      rewrite Z.div_small by lia. rewrite Z.div_small by lia. lia.
    + replace (n + 1 + m - 1 - k) with ((a + 1) * m + (b - k)) by lia.
      replace (n + m - 1 - k) with ((a + 1) * m + (b - 1 - k)) by lia.
      rewrite !Z.div_add_l by lia.
      rewrite Z.div_small by lia. rewrite Z.div_small by lia. lia.
Qed.

(** The numbers below [n] congruent to [k] modulo [m]. *)
Lemma count_residue (m k : Z) (n : nat) :
  0 < m -> 0 <= k < m ->
  Z.of_nat (List.length (filter (fun x => x mod m =? k) (words_below n))) =
    (Z.of_nat n + m - 1 - k) / m.
Proof.
  intros Hm Hk. induction n as [| n IH].
  - cbn [words_below seq map filter List.length Z.of_nat].
    symmetry. apply Z.div_small. lia.
  - rewrite words_below_S, filter_app, length_app, Nat2Z.inj_add, IH.
    rewrite Nat2Z.inj_succ. unfold Z.succ.
    rewrite (residue_step m k (Z.of_nat n) Hm Hk ltac:(lia)).
    cbn [filter]. destruct (Z.of_nat n mod m =? k); reflexivity.
Qed.

(** Bounding the numbers kept by [t] is the same as counting up to [t]. *)
Lemma filter_bounded (P : Z -> bool) (t n : nat) :
  (t < n)%nat ->
  filter (fun x => negb (x >? Z.of_nat t) && P x) (words_below n) =
    filter P (words_below (S t)).
Proof.
  intros Htn. induction n as [| n IH]; [lia |].
  rewrite words_below_S, filter_app. cbn [filter].
  destruct (Nat.eq_dec n t) as [-> | Hne].
  - rewrite words_below_S, filter_app. cbn [filter].
    destruct (Z.gtb_spec (Z.of_nat t) (Z.of_nat t)) as [Hgt | _]; [lia |].
    cbn [negb andb]. f_equal.
    apply filter_ext_in. intros x Hx. apply words_below_range in Hx.
    destruct (Z.gtb_spec x (Z.of_nat t)) as [Hgt | _]; [lia | reflexivity].
  - destruct (Z.gtb_spec (Z.of_nat n) (Z.of_nat t)) as [_ | Hle]; [| lia].
    cbn [negb andb]. rewrite app_nil_r. apply IH. lia.
Qed.

(** The count behind [accepted_count], for any range of words
    [0 .. wmax] and any threshold [q * limit] inside it. *)
Lemma count_kept (wmax limit q k : Z) :
  0 < limit -> 0 <= q -> q * limit <= wmax -> 0 <= k < limit ->
  Z.of_nat
    (List.length
       (filter (fun x => negb (x >? q * limit) && (x mod limit =? k))
          (words_below (Z.to_nat (wmax + 1))))) =
    q + (if k =? 0 then 1 else 0).
Proof.
  intros Hl Hq Hw Hk.
  assert (Ht : 0 <= q * limit) by nia.
  remember (Z.to_nat (q * limit)) as t eqn:Et.
  assert (E : q * limit = Z.of_nat t) by lia.
  rewrite E.
  rewrite (filter_bounded (fun x => x mod limit =? k)) by lia.
  rewrite (count_residue limit k _ Hl Hk).
  rewrite Nat2Z.inj_succ, <- E. unfold Z.succ.
  destruct (Z.eqb_spec k 0) as [-> | Hk0].
  - replace (q * limit + 1 + limit - 1 - 0) with ((q + 1) * limit + 0) by lia.
    rewrite Z.div_add_l by lia. rewrite Z.div_small by lia. lia.
  - replace (q * limit + 1 + limit - 1 - k) with (q * limit + (limit - k))
      by lia.
    rewrite Z.div_add_l by lia. rewrite Z.div_small by lia. lia.
Qed.

(** The number of words [randInt limit] turns into each index: [MAX /
    limit] of them, and one more for the index 0, the threshold itself. *)
Lemma accepted_count_value (limit k : Z) :
  0 < limit <= MAX -> 0 <= k < limit ->
  accepted_count limit k = MAX / limit + (if k =? 0 then 1 else 0).
Proof.
  intros [Hl Hm] Hk.
  pose proof (threshold_le_MAX limit Hl) as [Ht0 Ht1].
  assert (Hq : 0 <= MAX / limit)
    by (apply Z.div_pos; [rewrite MAX_value |]; lia).
  unfold accepted_count, all_words.
  rewrite <- (count_kept MAX limit (MAX / limit) k Hl Hq Ht1 Hk).
  do 2 f_equal. apply filter_ext. intros x.
  unfold accepted_as. rewrite udiv_pos by lia.
  rewrite (threshold_no_wrap limit Hl). reflexivity.
Qed.

End Counting.

Section UniformityClaims.
Import Word Entropy RandInt.

(** The same count on words of 8 bits, where it can be run: of the 256
    words, those kept for [limit = 7] are [0 .. 252], and the index 0
    receives 37 of them, every other index 36. *)
Example count_kept_8bit :
  map (fun k =>
         List.length
           (filter (fun x => negb (x >? 36 * 7) && (x mod 7 =? k))
              (words_below 256)))
      [0; 1; 2; 3; 4; 5; 6] = [37; 36; 36; 36; 36; 36; 36]%nat.
Proof. vm_compute. reflexivity. Qed.

(** C1. The words [randInt] keeps are not shared out evenly: for [limit =
    7] the index 0 is the image of 2635249153387078803 words, each of the
    indices 1 to 6 of 2635249153387078802.  The threshold [MAX / limit *
    limit] is itself kept ([buf > threshold] discards, where [buf >=
    threshold] would leave whole blocks), and it reduces to 0. *)
Theorem randInt_index_zero_favoured :
  map (accepted_count 7) [0; 1; 2; 3; 4; 5; 6] =
    [2635249153387078803; 2635249153387078802; 2635249153387078802;
     2635249153387078802; 2635249153387078802; 2635249153387078802;
     2635249153387078802].
Proof.
  assert (H7 : 0 < 7 <= MAX) by (rewrite MAX_value; lia).
  cbn [map].
  rewrite !accepted_count_value by (assumption || lia).
  reflexivity.
Qed.

(** X21. The same for every limit: one word more for the index 0 than
    for any other index. *)
Lemma randInt_never_uniform (limit k : Z) :
  2 <= limit <= MAX -> 0 < k < limit ->
  accepted_count limit 0 = accepted_count limit k + 1.
Proof.
  intros Hl Hk.
  rewrite !accepted_count_value by lia.
  destruct (Z.eqb_spec k 0) as [E | _]; [lia |].
  cbn [Z.eqb]. lia.
Qed.

End UniformityClaims.

(* ------------------------------------------------------------------ *)
(** * Properties of [main] *)

Section MainFacts.
Import Word Entropy RandInt Libc Cli Passgen.

(** The declared lengths are those of the class strings. *)
Example class_lengths :
  Z.of_nat (String.length LOWERS) = LOWERS_LEN /\
  Z.of_nat (String.length UPPERS) = UPPERS_LEN /\
  Z.of_nat (String.length NUMBERS) = NUMBERS_LEN /\
  Z.of_nat (String.length SYMBOLS) = SYMBOLS_LEN.
Proof. repeat split. Qed.

(** A run of length 3 with the default classes: a short read is made
    again, the word [MAX] is discarded, the words 5, 61 and 62 give the
    indices 5, 61 and 0. *)
Example run_of_length_3 :
  main ["passgen"; "3"]%string
    [GRFull 5; GRRead 3 77; GRFull 61; GRFull MAX; GRFull 62] =
    Exited 0 ("f9a" ++ newline)%string [] [].
Proof. reflexivity. Qed.

(** The selection loop, round by round. *)
Lemma select_add (pc : list ascii) (len : Z) (n1 n2 : nat) :
  forall pw s,
    select pc len (n1 + n2) pw s =
      match select pc len n1 pw s with
      | Selected pw' s' => select pc len n2 pw' s'
      | other => other
      end.
Proof.
  induction n1 as [| n1 IH]; intros pw s; [reflexivity |].
  cbn [Nat.add select].
  destruct (randInt len s) as [r errno rest | |]; try reflexivity.
  destruct (negb (errno =? 0)); [reflexivity | apply IH].
Qed.

(** A round in which [randInt] comes back with [errno] set leaves the
    loop, whatever the number of rounds still to run. *)
Lemma select_fails (pc : list ascii) (len : Z) (k n : nat)
  (pw : list ascii) (s s1 rest : entropy) (r e : Z) :
  (k < n)%nat ->
  select pc len k [] s = Selected pw s1 ->
  randInt len s1 = Returned r e rest ->
  e <> 0 ->
  select pc len n [] s = SelectFailed pw e rest.
Proof.
  intros Hk Hsel Hr He.
  replace n with (k + S (n - k - 1))%nat by lia.
  rewrite select_add, Hsel. cbn [select]. rewrite Hr.
  destruct (Z.eqb_spec e 0) as [E | _]; [contradiction | reflexivity].
Qed.

(** A block that holds [p[n]] holds the [n] bytes before it. *)
Lemma in_block_range (p : pointer) (n : Z) :
  in_block p n = true -> range_in_block p n = true.
Proof.
  destruct p as [| size]; cbn [in_block range_in_block]; [discriminate |].
  intros H. apply andb_prop in H as [H0 H1].
  rewrite H0. cbn [andb]. apply Z.leb_le. apply Z.ltb_lt in H1. lia.
Qed.

(** [main], when the selection loop is left through [goto cleanup]. *)
Lemma run_main_select_failed (heap : Z -> bool) (argv : list string)
  (st : settings) (s rest : entropy) (pw : list ascii) (e : Z) :
  handle_flags (tl argv) defaults = Proceed st ->
  select (fill_passChars st) (count_passChars st)
    (Z.to_nat (passLen st)) [] s = SelectFailed pw e rest ->
  run_main heap argv s =
    if allocations_hold heap st
    then
      Exited 0 EmptyString
        (stderr st ++ [Perror "Failed to get random" e]) rest
    else Faulted EmptyString.
Proof.
  intros Hflags Hsel. unfold run_main, allocations_hold. rewrite Hflags.
  cbv zeta.
  destruct (copies_valid _ st); cbn [negb andb]; [| reflexivity].
  destruct (in_block _ (passLen st)) eqn:Hin; cbn [negb]; [| reflexivity].
  rewrite Hsel, (in_block_range _ _ Hin). reflexivity.
Qed.


(** A length that cannot be allocated: with [-5] the request of [2^64 - 4]
    bytes is refused and [password[passLen]] goes through the null pointer;
    with [-1] the request wraps to 0 bytes and [password[passLen]] lies
    outside the block.  Neither run draws or prints anything. *)
Example unallocatable_length_faults :
  main ["passgen"; "-5"]%string [GRError ENOSYS] = Faulted EmptyString /\
  main ["passgen"; "-1"]%string [GRError ENOSYS] = Faulted EmptyString.
Proof. split; reflexivity. Qed.

End MainFacts.

Section MainClaims.
Import Word Entropy RandInt Libc Cli Passgen.

(** C4. With [limit = 0] nothing stands between a full read and the
    division [MAX / limit]: [randInt 0] ends in the division by zero
    whatever word was read, and so does a run of the program with the three
    default classes switched off. *)
Theorem randInt_zero_limit_divides (w : Z) (s : entropy) :
  randInt 0 (GRFull w :: s) = DivByZero /\
  udiv MAX 0 = None /\
  main ["passgen"; "-l"; "-u"; "-n"]%string (GRFull w :: s) = Crashed [].
Proof.
  split; [apply randInt_full_zero |].
  split; reflexivity.
Qed.

(** C6. Whatever the arguments, the allocator and the entropy source: if,
    after [k] positions were filled, with [k] below the requested length,
    the next call of [randInt] comes back with [errno] set, the program
    writes nothing to standard output.  When its allocations hold, it
    drops the positions already filled, reports the failure on standard
    error and exits; when they do not (a length that cannot be allocated),
    the run faults before the first draw, with nothing written either. *)
Theorem main_hard_failure_no_output (heap : Z -> bool)
  (argv : list string) (st : settings)
  (s s1 rest : entropy) (k : nat) (pw : list ascii) (r e : Z) :
  handle_flags (tl argv) defaults = Proceed st ->
  (k < Z.to_nat (passLen st))%nat ->
  select (fill_passChars st) (count_passChars st) k [] s = Selected pw s1 ->
  randInt (count_passChars st) s1 = Returned r e rest ->
  e <> 0 ->
  stdout_of (run_main heap argv s) = EmptyString /\
  run_main heap argv s =
    (if allocations_hold heap st
     then
       Exited 0 EmptyString
         (stderr st ++ [Perror "Failed to get random" e]) rest
     else Faulted EmptyString).
Proof.
  intros Hflags Hk Hsel Hr He.
  pose proof (select_fails _ _ _ _ _ _ _ _ _ _ Hk Hsel Hr He) as Hfail.
  rewrite (run_main_select_failed heap argv st s rest pw e Hflags Hfail).
  split; [| reflexivity].
  destruct (allocations_hold heap st); reflexivity.
Qed.

Lemma main_hard_failure_no_output_witness :
  stdout_of
    (run_main default_heap ["passgen"; "3"]%string
       [GRFull 5; GRFull 9; GRError ENOSYS; GRFull 1]) = EmptyString /\
  run_main default_heap ["passgen"; "3"]%string
    [GRFull 5; GRFull 9; GRError ENOSYS; GRFull 1] =
    (if allocations_hold default_heap (mkSettings true true true false 3 [])
     then
       Exited 0 EmptyString [Perror "Failed to get random" ENOSYS]
         [GRFull 1]
     else Faulted EmptyString).
Proof.
  apply (main_hard_failure_no_output default_heap ["passgen"; "3"]%string
           (mkSettings true true true false 3 [])
           [GRFull 5; GRFull 9; GRError ENOSYS; GRFull 1]
           [GRError ENOSYS; GRFull 1] [GRFull 1] 2
           ["f"; "j"]%char 0 ENOSYS).
  - reflexivity.
  - cbn. lia.
  - reflexivity.
  - reflexivity.
  - discriminate.
Defined.

(** What the flag loop does with a last argument that is no option, by
    the outcome of [strtol]. *)
Lemma handle_flags_length (option : string) (st : settings) :
  parseOption option = OPTION_UNRECOGNIZED ->
  handle_flags [option] st =
    Proceed
      (if negb (snd (strtol option) =? 0)
       then write_err (badOpt option) (set_passLen PASS_LEN_DEFAULT st)
       else set_passLen (wrap (fst (strtol option))) st).
Proof.
  intros Hp. cbn [handle_flags]. rewrite Hp.
  destruct (strtol option) as [value errno]. cbn [fst snd].
  destruct (negb (errno =? 0)); reflexivity.
Qed.

(** A last argument too large for [long] makes [strtol] set [errno]: the
    default length is kept and the argument reported. *)
Example length_out_of_range :
  handle_flags ["99999999999999999999"%string] defaults =
    Proceed
      (mkSettings true true true false PASS_LEN_DEFAULT
         (badOpt "99999999999999999999")).
Proof. reflexivity. Qed.

(** C7. A last argument of non-numeric text is not handled that way:
    [strtol] converts nothing, returns 0 and leaves [errno] zero, so the
    length becomes 0, nothing is written to standard error, and the program
    prints an empty line. *)
Theorem non_numeric_length_accepted (s : entropy) :
  strtol "abc" = (0, 0) /\
  handle_flags ["abc"%string] defaults =
    Proceed (mkSettings true true true false 0 []) /\
  main ["passgen"; "abc"]%string s = Exited 0 newline [] s.
Proof.
  split; [reflexivity |]. split; reflexivity.
Qed.

(** C8. For every setting of the four flags, the characters [main] draws
    from are the enabled classes one after the other, in the order lower,
    upper, number, symbol, and [passCharsLen] is the sum of their lengths;
    no class gives the empty sequence, lower alone the 26 lowercase
    letters, all four the 94 characters of the four classes. *)
Theorem alphabet_is_concatenation (l u n y : bool) (len : Z)
  (err : list err_write) :
  let st := mkSettings l u n y len err in
  (alphabet st =
     list_ascii_of_string
       ((if l then LOWERS else EmptyString) ++
        (if u then UPPERS else EmptyString) ++
        (if n then NUMBERS else EmptyString) ++
        (if y then SYMBOLS else EmptyString))%string) /\
  (count_passChars st =
     (if l then Z.of_nat (String.length LOWERS) else 0) +
     (if u then Z.of_nat (String.length UPPERS) else 0) +
     (if n then Z.of_nat (String.length NUMBERS) else 0) +
     (if y then Z.of_nat (String.length SYMBOLS) else 0)) /\
  Z.of_nat (List.length (alphabet st)) = count_passChars st /\
  alphabet (mkSettings false false false false len err) = [] /\
  alphabet (mkSettings true false false false len err) =
    list_ascii_of_string "abcdefghijklmnopqrstuvwxyz" /\
  alphabet (mkSettings true true true true len err) =
    list_ascii_of_string (LOWERS ++ UPPERS ++ NUMBERS ++ SYMBOLS)%string /\
  List.length (alphabet (mkSettings true true true true len err)) = 94%nat.
Proof.
  destruct l, u, n, y; repeat split; vm_compute; reflexivity.
Qed.




End MainClaims.

(* ------------------------------------------------------------------ *)
(** * Further properties of [randInt] *)

Section RandIntMore.
Import Word Entropy RandInt Notions.

(** [settles] and [randInt_cons] side by side. *)
Lemma randInt_step (limit : Z) (d : getrandom_result) (s : entropy) :
  limit <> 0 ->
  randInt limit (d :: s) =
    if settles limit d
    then Returned (fst (settled_value limit d)) (snd (settled_value limit d)) s
    else randInt limit s.
Proof.
  intros Hl. rewrite (randInt_cons limit d s Hl).
  destruct d as [n w | e]; cbn [settles settled_value fst snd].
  - destruct (n =? SIZEOF_BUF); cbn [andb]; [| reflexivity].
    destruct (w >? umul (MAX / limit) limit); reflexivity.
  - destruct (e =? 0); reflexivity.
Qed.

Lemma randInt_skip_prefix (limit : Z) (pre s : entropy) :
  limit <> 0 ->
  forallb (fun d => negb (settles limit d)) pre = true ->
  randInt limit (pre ++ s) = randInt limit s.
Proof.
  intros Hl. induction pre as [| d pre IH]; [reflexivity |].
  cbn [forallb app]. intros H. apply andb_prop in H as [Hd Hpre].
  rewrite (randInt_step limit d _ Hl).
  destruct (settles limit d); [discriminate |].
  apply IH, Hpre.
Qed.

(** X1. Results that do not end the call leave no trace: short reads and
    discarded words in front of the script can be dropped without changing
    what [randInt] does. *)
Theorem randInt_skips (limit : Z) (pre s : entropy) :
  limit <> 0 ->
  forallb (fun d => negb (settles limit d)) pre = true ->
  randInt limit (pre ++ s) = randInt limit s.
Proof. apply randInt_skip_prefix. Qed.

Lemma randInt_skips_witness :
  7 <> 0 /\
  randInt 7 ([GRRead 2 1; GRFull MAX; GRRead 0 3] ++ [GRFull 23]) =
    randInt 7 [GRFull 23].
Proof.
  split; [discriminate |].
  apply (randInt_skips 7 [GRRead 2 1; GRFull MAX; GRRead 0 3] [GRFull 23]);
    [discriminate | reflexivity].
Defined.

(** X2. [randInt] returns exactly on the first result that ends the
    call: every result before it is skipped, the results after it are left
    unread, and the value comes from that result alone, the kept word
    modulo [limit] with [errno] zero, or 0 with the [errno] of the failed
    call.  The word a short read left in [buf] is never used. *)
Theorem randInt_characterised (limit : Z) (s rest : entropy) (r e : Z) :
  limit <> 0 ->
  randInt limit s = Returned r e rest <->
  exists pre d,
    s = pre ++ d :: rest /\
    forallb (fun x => negb (settles limit x)) pre = true /\
    settles limit d = true /\
    settled_value limit d = (r, e).
Proof.
  intros Hl. split.
  - revert r e rest. induction s as [| d s IH]; intros r e rest;
      [discriminate |].
    rewrite (randInt_step limit d s Hl).
    destruct (settles limit d) eqn:Hd.
    + intros [= <- <- <-]. exists [], d.
      repeat split; try assumption.
      destruct (settled_value limit d); reflexivity.
    + intros H. destruct (IH _ _ _ H) as [pre [d' [-> [Hpre [Hd' Hv]]]]].
      exists (d :: pre), d'. cbn [forallb app]. rewrite Hd, Hpre.
      repeat split; assumption.
  - intros [pre [d [-> [Hpre [Hd Hv]]]]].
    rewrite (randInt_skip_prefix limit pre _ Hl Hpre).
    rewrite (randInt_step limit d rest Hl), Hd, Hv. reflexivity.
Qed.

Lemma randInt_characterised_witness :
  7 <> 0 /\
  (randInt 7 [GRRead 2 1; GRFull MAX; GRFull 23; GRFull 4] =
     Returned 2 0 [GRFull 4] <->
   exists pre d,
     [GRRead 2 1; GRFull MAX; GRFull 23; GRFull 4] = pre ++ d :: [GRFull 4] /\
     forallb (fun x => negb (settles 7 x)) pre = true /\
     settles 7 d = true /\
     settled_value 7 d = (2, 0)).
Proof.
  split; [discriminate |].
  apply (randInt_characterised 7
           [GRRead 2 1; GRFull MAX; GRFull 23; GRFull 4] [GRFull 4] 2 0).
  discriminate.
Defined.

(** X3. [randInt] is still drawing when the script ends exactly when
    no result of the script ends the call: it never gives up on its own,
    however many words it has discarded. *)
Theorem randInt_starved_iff (limit : Z) (s : entropy) :
  limit <> 0 ->
  randInt limit s = Starved <-> existsb (settles limit) s = false.
Proof.
  intros Hl. induction s as [| d s IH]; [split; reflexivity |].
  rewrite (randInt_step limit d s Hl). cbn [existsb].
  destruct (settles limit d); cbn [orb]; [split; discriminate | exact IH].
Qed.

Lemma randInt_starved_iff_witness :
  7 <> 0 /\
  (randInt 7 [GRFull MAX; GRFull (MAX - 1); GRRead 5 0] = Starved <->
   existsb (settles 7) [GRFull MAX; GRFull (MAX - 1); GRRead 5 0] = false).
Proof.
  split; [discriminate |].
  apply (randInt_starved_iff 7 [GRFull MAX; GRFull (MAX - 1); GRRead 5 0]).
  discriminate.
Defined.


(** X4. The value the local variable [buf] holds on entry, which the
    code leaves indeterminate, has no influence on what [randInt] does:
    [buf] is only read after a full read has overwritten it. *)
Theorem randInt_buf_never_read (limit b1 b2 : Z) (s : entropy) :
  randInt_from limit b1 s = randInt_from limit b2 s.
Proof.
  rewrite (randInt_from_buf limit s b1), (randInt_from_buf limit s b2).
  reflexivity.
Qed.

Lemma randInt_from_zero (s : entropy) :
  forall buf,
    randInt_from 0 buf s = DivByZero \/
    randInt_from 0 buf s = Starved \/
    exists e rest, e <> 0 /\ randInt_from 0 buf s = Returned 0 e rest.
Proof.
  induction s as [| d s IH]; intros buf; [right; left; reflexivity |].
  destruct d as [n w | e]; cbn [randInt_from getrandom].
  - destruct (n =? SIZEOF_BUF); cbn; [left; reflexivity | apply IH].
  - destruct (Z.eqb_spec e 0) as [-> | He]; cbn; [apply IH |].
    right; right. exists e, s. split; [assumption | reflexivity].
Qed.

(** X5. With [limit = 0], [randInt] never returns an index: either the
    call ends in the division by zero, or the script ends first, or a
    failed call of [getrandom] makes it return 0 with [errno] set. *)
Theorem randInt_zero_never_succeeds (s : entropy) :
  randInt 0 s = DivByZero \/
  randInt 0 s = Starved \/
  exists e rest, e <> 0 /\ randInt 0 s = Returned 0 e rest.
Proof. apply randInt_from_zero. Qed.

End RandIntMore.

Section DiscardedWords.
Import Word Entropy RandInt Notions.

(** The numbers below [n] that lie above [t]. *)
Lemma count_above (t n : nat) :
  (t < n)%nat ->
  List.length (filter (fun x => x >? Z.of_nat t) (words_below n)) =
    (n - t - 1)%nat.
Proof.
  intros Htn. induction n as [| n IH]; [lia |].
  rewrite words_below_S, filter_app, length_app. cbn [filter].
  destruct (Nat.eq_dec n t) as [-> | Hne].
  - destruct (Z.gtb_spec (Z.of_nat t) (Z.of_nat t)) as [Hgt | _]; [lia |].
    cbn [List.length].
    replace (filter (fun x => x >? Z.of_nat t) (words_below t)) with
      (@nil Z); [cbn [List.length]; lia |].
    symmetry. apply List.length_zero_iff_nil.
    assert (E : filter (fun x => x >? Z.of_nat t) (words_below t) =
                filter (fun _ => false) (words_below t)).
    { apply filter_ext_in. intros x Hx. apply words_below_range in Hx.
      destruct (Z.gtb_spec x (Z.of_nat t)); [lia | reflexivity]. }
    rewrite E. clear. induction (words_below t); [reflexivity | assumption].
  - destruct (Z.gtb_spec (Z.of_nat n) (Z.of_nat t)) as [_ | Hle]; [| lia].
    cbn [List.length]. rewrite IH by lia. lia.
Qed.

(** X6. Of the [MAX + 1] words a [size_t] holds, [randInt limit]
    discards [MAX mod limit], fewer than [limit]; when [limit] divides
    [MAX] it discards none. *)
Theorem discarded_count_value (limit : Z) :
  0 < limit <= MAX ->
  discarded_count limit = MAX mod limit /\
  discarded_count limit < limit /\
  (MAX mod limit = 0 -> discarded_count limit = 0).
Proof.
  intros [Hl Hm].
  pose proof (threshold_le_MAX limit Hl) as [Ht0 Ht1].
  assert (E : discarded_count limit = MAX mod limit).
  { unfold discarded_count, all_words.
    assert (Ef : filter (discarded limit) (words_below (Z.to_nat (MAX + 1))) =
                 filter (fun x => x >? Z.of_nat (Z.to_nat (MAX / limit * limit)))
                   (words_below (Z.to_nat (MAX + 1)))).
    { apply filter_ext. intros x. unfold discarded.
      rewrite udiv_pos by lia. rewrite (threshold_no_wrap limit Hl).
      rewrite Z2Nat.id by assumption. reflexivity. }
    rewrite Ef, count_above by lia.
    rewrite (Z.mod_eq MAX limit) by lia. lia. }
  split; [exact E |]. split.
  - rewrite E. apply Z.mod_pos_bound. assumption.
  - intros H0. rewrite E. exact H0.
Qed.

Lemma discarded_count_value_witness :
  0 < 62 <= MAX /\
  discarded_count 62 = MAX mod 62 /\
  discarded_count 62 < 62 /\
  (MAX mod 62 = 0 -> discarded_count 62 = 0).
Proof.
  split; [rewrite MAX_value; lia |].
  apply (discarded_count_value 62). rewrite MAX_value; lia.
Defined.

End DiscardedWords.

(* ------------------------------------------------------------------ *)
(** * Properties of the command line *)

Section CliFacts.
Import Libc Cli Passgen Notions.

Local Open Scope string_scope.

(** The two [switch] statements of [parseOption] as comparisons. *)
Lemma parseOption_tests (arg : string) :
  parseOption arg =
    let c0 := char_at arg 0 in
    let c1 := char_at arg 1 in
    if Ascii.eqb c0 "+" then
      if Ascii.eqb c1 "l" then short_option arg OPTION_LOWER_ENABLE
      else if Ascii.eqb c1 "u" then short_option arg OPTION_UPPER_ENABLE
      else if Ascii.eqb c1 "n" then short_option arg OPTION_NUMBER_ENABLE
      else if Ascii.eqb c1 "s" then short_option arg OPTION_SYMBOL_ENABLE
      else OPTION_UNRECOGNIZED
    else if Ascii.eqb c0 "-" then
      if Ascii.eqb c1 "-" then parseLongOption arg
      else if Ascii.eqb c1 "l" then short_option arg OPTION_LOWER_DISABLE
      else if Ascii.eqb c1 "u" then short_option arg OPTION_UPPER_DISABLE
      else if Ascii.eqb c1 "n" then short_option arg OPTION_NUMBER_DISABLE
      else if Ascii.eqb c1 "s" then short_option arg OPTION_SYMBOL_DISABLE
      else OPTION_UNRECOGNIZED
    else OPTION_UNRECOGNIZED.
Proof.
  unfold parseOption. cbv zeta.
  generalize (short_option arg) (parseLongOption arg).
  generalize (char_at arg 0) (char_at arg 1).
  intros c0 c1 short long.
  destruct c0 as [[] [] [] [] [] [] [] []]; try reflexivity;
    destruct c1 as [[] [] [] [] [] [] [] []]; reflexivity.
Qed.

(** A C string with a NUL at index 2 has two characters. *)
Lemma two_characters (arg : string) (c0 c1 : ascii) :
  is_c_string arg = true ->
  char_at arg 0 = c0 -> char_at arg 1 = c1 -> char_at arg 2 = zero ->
  c0 <> zero -> c1 <> zero ->
  arg = String c0 (String c1 EmptyString).
Proof.
  intros Hc H0 H1 H2 N0 N1.
  destruct arg as [| a0 [| a1 [| a2 arg]]]; cbn in H0, H1, H2;
    try congruence.
  cbn in Hc. rewrite H2 in Hc. cbn in Hc.
  rewrite !andb_false_r in Hc. discriminate.
Qed.

Lemma short_option_inv (arg : string) (o o' : Option_) :
  o <> OPTION_UNRECOGNIZED ->
  short_option arg o' = o -> char_at arg 2 = zero /\ o' = o.
Proof.
  unfold short_option. intros Ho.
  destruct (Ascii.eqb_spec (char_at arg 2) zero) as [E | _];
    [intros <-; split; [assumption | reflexivity] | intros <-; contradiction].
Qed.

Lemma parseLongOption_inv (arg : string) (o : Option_) :
  o <> OPTION_UNRECOGNIZED ->
  parseLongOption arg = o -> In arg (spellings o).
Proof.
  unfold parseLongOption. intros Ho.
  repeat match goal with
         | |- context [String.eqb arg ?lit] =>
             destruct (String.eqb_spec arg lit) as [-> | _];
             [intros <-; cbn; auto |]
         end.
  intros <-. contradiction.
Qed.

Lemma parseOption_sound (arg : string) (o : Option_) :
  is_c_string arg = true ->
  o <> OPTION_UNRECOGNIZED ->
  parseOption arg = o -> In arg (spellings o).
Proof.
  intros Hc Ho. rewrite parseOption_tests. cbv zeta.
  assert (Hplus : "+"%char <> zero) by discriminate.
  assert (Hminus : "-"%char <> zero) by discriminate.
  repeat match goal with
         | |- context [Ascii.eqb ?c ?lit] =>
             destruct (Ascii.eqb_spec c lit)
         end;
    try (intros <-; contradiction);
    try (apply parseLongOption_inv; assumption);
    intros H; apply (short_option_inv _ _ _ Ho) in H as [H2 <-];
    match goal with
    | H0 : char_at arg 0 = ?c0, H1 : char_at arg 1 = ?c1 |- _ =>
        rewrite (two_characters arg c0 c1 Hc H0 H1 H2);
        [cbn; auto | discriminate | discriminate]
    end.
Qed.

Lemma parseOption_complete (arg : string) (o : Option_) :
  In arg (spellings o) -> parseOption arg = o.
Proof.
  destruct o; cbn [spellings In]; intros H;
    repeat (destruct H as [<- | H]; [reflexivity |]); contradiction.
Qed.

(** X7. [parseOption] recognises an option under its spellings and
    under nothing else: the two-character form and the long form, written
    in full.  Anything longer, shorter or combined ([+lu], [--help=],
    [-h]) is [OPTION_UNRECOGNIZED]. *)
Theorem parseOption_spellings (arg : string) (o : Option_) :
  is_c_string arg = true ->
  o <> OPTION_UNRECOGNIZED ->
  parseOption arg = o <-> In arg (spellings o).
Proof.
  intros Hc Ho. split.
  - apply parseOption_sound; assumption.
  - apply parseOption_complete.
Qed.

Lemma parseOption_spellings_witness :
  (is_c_string "--enable-symbol" = true /\
   OPTION_SYMBOL_ENABLE <> OPTION_UNRECOGNIZED) /\
  (parseOption "--enable-symbol" = OPTION_SYMBOL_ENABLE <->
   In "--enable-symbol" (spellings OPTION_SYMBOL_ENABLE)).
Proof.
  split; [split; [reflexivity | discriminate] |].
  apply (parseOption_spellings "--enable-symbol" OPTION_SYMBOL_ENABLE);
    [reflexivity | discriminate].
Defined.

(** X8. The text [printHelp] writes documents every argument that
    [parseOption] recognises: the help text holds the line of its option,
    a tab, the spellings of the option separated by a comma and a space,
    and a newline, and the argument is one of those spellings. *)
Theorem help_documents_recognised (arg : string) (o : Option_) :
  is_c_string arg = true ->
  o <> OPTION_UNRECOGNIZED ->
  parseOption arg = o ->
  In arg (spellings o) /\ occurs (help_entry o) HELP_TEXT = true.
Proof.
  intros Hc Ho Hp. split; [apply parseOption_sound; assumption |].
  clear Hc Hp. destruct o; try (vm_compute; reflexivity).
  contradiction.
Qed.

Lemma help_documents_recognised_witness :
  (is_c_string "-n" = true /\
   OPTION_NUMBER_DISABLE <> OPTION_UNRECOGNIZED /\
   parseOption "-n" = OPTION_NUMBER_DISABLE) /\
  In "-n" (spellings OPTION_NUMBER_DISABLE) /\
  occurs (help_entry OPTION_NUMBER_DISABLE) HELP_TEXT = true.
Proof.
  split; [split; [reflexivity | split; [discriminate | reflexivity]] |].
  apply (help_documents_recognised "-n" OPTION_NUMBER_DISABLE);
    [reflexivity | discriminate | reflexivity].
Defined.

End CliFacts.

Section FlagLoopFacts.
Import Entropy Libc Cli Passgen Notions.

Local Open Scope string_scope.

Lemma handle_flags_help (args : list string) :
  forall st,
    In "--help" args ->
    exists st' err,
      handle_flags args st = GotoExit st' /\
      stderr st' = (err ++ [Fputs HELP_TEXT])%list.
Proof.
  induction args as [| a rest IH]; intros st Hin; [contradiction |].
  destruct Hin as [-> | Hin].
  - exists (write_err [Fputs HELP_TEXT] st), (stderr st).
    split; reflexivity.
  - cbn [handle_flags].
    destruct (parseOption a); try (apply IH; assumption).
    + exists (write_err [Fputs HELP_TEXT] st), (stderr st).
      split; reflexivity.
    + destruct rest as [| b rest']; [contradiction |].
      apply IH; assumption.
Qed.

(** X9. [--help] anywhere among the arguments ends the run at once:
    nothing is written to standard output, no entropy is drawn, the status
    is 0, and the help text is the last thing written to standard error,
    whatever the other arguments are. *)
Theorem main_help (argv : list string) (s : entropy) :
  In "--help" (tl argv) ->
  exists err,
    main argv s = Exited 0 EmptyString ((err ++ [Fputs HELP_TEXT])%list) s.
Proof.
  intros Hin. unfold main, run_main.
  destruct (handle_flags_help (tl argv) defaults Hin)
    as [st' [err [-> Herr]]].
  exists err. rewrite Herr. reflexivity.
Qed.

Lemma main_help_witness :
  In "--help" (tl ["passgen"; "-x"; "--help"; "12"]) /\
  exists err,
    main ["passgen"; "-x"; "--help"; "12"] [GRFull 1] =
      Exited 0 EmptyString ((err ++ [Fputs HELP_TEXT])%list) [GRFull 1].
Proof.
  assert (H : In "--help" (tl ["passgen"; "-x"; "--help"; "12"]))
    by (cbn; auto).
  split; [exact H |].
  apply (main_help ["passgen"; "-x"; "--help"; "12"] [GRFull 1] H).
Defined.

(** X10. The length is read from the last argument only: when the last
    argument is an option, the length is left as it was, and a number given
    earlier has no effect on it. *)
Theorem length_only_from_last (args : list string) (a : string) :
  forall st st',
    handle_flags (args ++ [a])%list st = Proceed st' ->
    parseOption a <> OPTION_UNRECOGNIZED ->
    passLen st' = passLen st.
Proof.
  induction args as [| x args IH]; intros st st' H Ha.
  - cbn [app handle_flags] in H.
    destruct (parseOption a); try contradiction; try discriminate;
      injection H as <-; reflexivity.
  - cbn [app handle_flags] in H.
    destruct (parseOption x); try discriminate;
      try (rewrite (IH _ _ H Ha); reflexivity).
    destruct (args ++ [a])%list as [| y rest] eqn:E.
    + destruct args; discriminate.
    + rewrite (IH _ _ H Ha). reflexivity.
Qed.

Lemma length_only_from_last_witness :
  (handle_flags (["10"] ++ ["+s"])%list defaults =
     Proceed (mkSettings true true true true PASS_LEN_DEFAULT (badOpt "10")) /\
   parseOption "+s" <> OPTION_UNRECOGNIZED) /\
  passLen (mkSettings true true true true PASS_LEN_DEFAULT (badOpt "10")) =
    passLen defaults.
Proof.
  split; [split; [reflexivity | discriminate] |].
  apply (length_only_from_last ["10"] "+s" defaults);
    [reflexivity | discriminate].
Defined.

(** The loop carries on from any point with some settings. *)
Lemma handle_flags_app (pre rest : list string) :
  forall st st',
    rest <> [] ->
    handle_flags (pre ++ rest)%list st = Proceed st' ->
    exists st1, handle_flags rest st1 = Proceed st'.
Proof.
  induction pre as [| x pre IH]; intros st st' Hne H; [eauto |].
  cbn [app handle_flags] in H.
  destruct (parseOption x); try discriminate; try (eapply IH; eassumption).
  destruct pre as [| p pre'].
  - destruct rest as [| y tail]; [contradiction |].
    cbn [app] in H. eapply IH; eassumption.
  - cbn [app] in H. eapply (IH _ _ Hne). cbn [app]. exact H.
Qed.

(** Arguments that do not assign the flag of a class leave it alone. *)
Lemma handle_flags_untouched (c : char_class) (post : list string) :
  forall st st',
    handle_flags post st = Proceed st' ->
    Forall (fun x => ~ touches c x) post ->
    enabled c st' = enabled c st.
Proof.
  induction post as [| x post IH]; intros st st' H Hall.
  - injection H as <-. reflexivity.
  - inversion Hall as [| ? ? Hx Hpost]; subst.
    cbn [handle_flags] in H. unfold touches in Hx.
    destruct (parseOption x); try discriminate;
      try (rewrite (IH _ _ H Hpost);
           destruct c; try reflexivity;
           exfalso; apply Hx; cbn [assigns]; eauto).
    destruct post as [| y rest].
    + destruct (strtol x) as [value errno].
      destruct (negb (Z.eqb errno 0));
        rewrite (IH _ _ H Hpost); destruct c; reflexivity.
    + rewrite (IH _ _ H Hpost); destruct c; reflexivity.
Qed.

(** X11. The last argument that assigns the flag of a class decides
    it: when an argument enables or disables a class and no later
    argument assigns that class, the flag has that value when the loop
    ends. *)
Theorem last_assignment_decides (pre post : list string) (a : string)
  (c : char_class) (b : bool) (st st' : settings) :
  handle_flags (pre ++ a :: post)%list st = Proceed st' ->
  assigns (parseOption a) = Some (c, b) ->
  Forall (fun x => ~ touches c x) post ->
  enabled c st' = b.
Proof.
  intros H Ha Hpost.
  destruct (handle_flags_app pre (a :: post) st st' ltac:(discriminate) H)
    as [st1 H1].
  cbn [handle_flags] in H1.
  destruct (parseOption a); cbn [assigns] in Ha; try discriminate;
    injection Ha as <- <-;
    rewrite (handle_flags_untouched _ post _ _ H1 Hpost); reflexivity.
Qed.

Lemma last_assignment_decides_witness :
  (handle_flags (["+s"; "-l"] ++ "--disable-symbol" :: ["+l"; "8"])%list defaults =
     Proceed (mkSettings true true true false 8 []) /\
   assigns (parseOption "--disable-symbol") = Some (Symbol, false) /\
   Forall (fun x => ~ touches Symbol x) ["+l"; "8"]) /\
  enabled Symbol (mkSettings true true true false 8 []) = false.
Proof.
  assert (Hpost : Forall (fun x => ~ touches Symbol x) ["+l"; "8"]).
  { repeat constructor; intros [b Hb]; discriminate. }
  split; [split; [reflexivity | split; [reflexivity | exact Hpost]] |].
  apply (last_assignment_decides ["+s"; "-l"] ["+l"; "8"] "--disable-symbol"
           Symbol false defaults (mkSettings true true true false 8 []));
    [reflexivity | reflexivity | exact Hpost].
Defined.

End FlagLoopFacts.

(* ------------------------------------------------------------------ *)
(** * Properties of the alphabet and of the selection loop *)

Section SelectionFacts.
Import Word Entropy RandInt Libc Cli Passgen Notions.

Lemma distinct_sound (l : list ascii) : distinct l = true -> NoDup l.
Proof.
  induction l as [| c l IH]; cbn [distinct]; intros H; [constructor |].
  apply andb_prop in H as [Hc Hl]. constructor; [| apply IH, Hl].
  intros Hin. apply negb_true_iff in Hc.
  assert (Ht : existsb (Ascii.eqb c) l = true).
  { apply existsb_exists. exists c. split; [assumption |].
    apply Ascii.eqb_refl. }
  congruence.
Qed.

Lemma alphabet_length (st : settings) :
  List.length (alphabet st) = Z.to_nat (count_passChars st).
Proof.
  destruct st as [l u n y len err].
  destruct l, u, n, y; vm_compute; reflexivity.
Qed.

Lemma count_passChars_nonneg (st : settings) : 0 <= count_passChars st.
Proof.
  destruct st as [l u n y len err].
  destruct l, u, n, y; vm_compute; discriminate.
Qed.

Lemma alphabet_no_nul (st : settings) : ~ In zero (alphabet st).
Proof.
  intros Hin.
  assert (Ht : existsb (Ascii.eqb zero) (alphabet st) = true).
  { apply existsb_exists. exists zero. split; [assumption | reflexivity]. }
  revert Ht. clear Hin.
  destruct st as [l u n y len err].
  destruct l, u, n, y; vm_compute; discriminate.
Qed.

(** X12. Whatever the flags, no character occurs twice among the
    characters the password is drawn from, and none of them is NUL: every
    index selects a character of its own, and the string handed to [puts]
    is not cut short. *)
Theorem alphabet_distinct (st : settings) :
  NoDup (alphabet st) /\ ~ In zero (alphabet st).
Proof.
  split; [| apply alphabet_no_nul].
  apply distinct_sound.
  destruct st as [l u n y len err].
  destruct l, u, n, y; vm_compute; reflexivity.
Qed.

(** X13. Whenever a class is enabled, the four copies fill one byte
    more than the [passCharsLen] bytes [calloc] was asked for: the
    terminating NUL of the last [strcpy] is stored at offset
    [passCharsLen], right after the block. *)
Theorem passChars_overrun (st : settings) :
  count_passChars st <> 0 ->
  List.length (fill_passChars st) = S (Z.to_nat (count_passChars st)) /\
  nth (Z.to_nat (count_passChars st)) (fill_passChars st) "x"%char = zero /\
  List.length (calloc (count_passChars st)) = Z.to_nat (count_passChars st).
Proof.
  destruct st as [l u n y len err].
  destruct l, u, n, y; intros H;
    try (exfalso; apply H; reflexivity);
    repeat split; vm_compute; reflexivity.
Qed.

Lemma passChars_overrun_witness :
  count_passChars defaults <> 0 /\
  List.length (fill_passChars defaults) =
    S (Z.to_nat (count_passChars defaults)) /\
  nth (Z.to_nat (count_passChars defaults)) (fill_passChars defaults)
    "x"%char = zero /\
  List.length (calloc (count_passChars defaults)) =
    Z.to_nat (count_passChars defaults).
Proof.
  split; [discriminate |].
  apply (passChars_overrun defaults). discriminate.
Defined.

(** X14. On full reads of kept words the password is a function of
    the words alone: one word per position, in order, each giving the
    character at the index [word mod passCharsLen]; the rest of the script
    is left unread. *)
Theorem select_kept_words (passChars : list ascii) (passCharsLen : Z)
  (ws : list Z) (rest : entropy) :
  0 < passCharsLen ->
  Forall (fun w => discarded passCharsLen w = false) ws ->
  forall password,
    select passChars passCharsLen (List.length ws) password
      (map GRFull ws ++ rest) =
      Selected (password ++ map (pick passChars passCharsLen) ws) rest.
Proof.
  intros Hl Hall. induction Hall as [| w ws Hw Hws IH]; intros password.
  - cbn. rewrite app_nil_r. reflexivity.
  - cbn [List.length map app select].
    rewrite randInt_full by lia.
    unfold discarded in Hw. rewrite udiv_pos in Hw by lia. rewrite Hw.
    cbn [Z.eqb negb]. rewrite IH, <- app_assoc. reflexivity.
Qed.

Lemma select_kept_words_witness :
  (0 < 62 /\ Forall (fun w => discarded 62 w = false) [5; 61; 62]) /\
  select (fill_passChars defaults) 62 (List.length [5; 61; 62]) []
    (map GRFull [5; 61; 62] ++ [GRFull 9]) =
    Selected ([] ++ map (pick (fill_passChars defaults) 62) [5; 61; 62])
      [GRFull 9].
Proof.
  assert (Hall : Forall (fun w => discarded 62 w = false) [5; 61; 62])
    by (repeat constructor).
  split; [split; [lia | exact Hall] |].
  apply (select_kept_words (fill_passChars defaults) 62 [5; 61; 62]
           [GRFull 9]); [lia | exact Hall].
Defined.

(** What a completed selection has stored. *)
Lemma select_shape (pc : list ascii) (len : Z) (n : nat) :
  0 <= len ->
  forall pw0 s pw rest,
    select pc len n pw0 s = Selected pw rest ->
    exists new,
      pw = pw0 ++ new /\ List.length new = n /\
      Forall (fun c => exists r, 0 <= r < len /\ c = nth (Z.to_nat r) pc zero)
        new.
Proof.
  intros Hlen. induction n as [| n IH]; intros pw0 s pw rest H.
  - injection H as <- <-. exists []. rewrite app_nil_r. repeat split.
    constructor.
  - cbn [select] in H.
    destruct (randInt len s) as [r e s1 | |] eqn:Hr; try discriminate.
    destruct (Z.eqb_spec e 0) as [-> | He]; cbn [negb] in H;
      [| discriminate].
    assert (Hrange : 0 <= r < len).
    { destruct (Z.eq_dec len 0) as [-> | Hnz].
      - destruct (randInt_from_zero s 0) as [E | [E | [e' [t [He' E]]]]];
          unfold randInt in Hr; rewrite E in Hr; try discriminate.
        injection Hr as _ E0 _. contradiction.
      - apply (randInt_value_bound len s ltac:(lia) r 0 s1 Hr). }
    destruct (IH _ _ _ _ H) as [new [-> [Hn Hall]]].
    exists (nth (Z.to_nat r) pc zero :: new).
    rewrite <- app_assoc. repeat split.
    + cbn. rewrite Hn. reflexivity.
    + constructor; [exists r; split; [assumption | reflexivity] | assumption].
Qed.

Lemma c_string_terminated (pw : list ascii) :
  ~ In zero pw -> c_string (pw ++ [zero]) = string_of_list_ascii pw.
Proof.
  induction pw as [| c pw IH]; intros Hn; [reflexivity |].
  cbn [app c_string string_of_list_ascii].
  destruct (Ascii.eqb_spec c zero) as [-> | _].
  - exfalso. apply Hn. left. reflexivity.
  - rewrite IH; [reflexivity |]. intros Hin. apply Hn. right. assumption.
Qed.

Lemma index_in_alphabet (st : settings) (r : Z) :
  0 <= r < count_passChars st ->
  In (nth (Z.to_nat r) (fill_passChars st) zero) (alphabet st).
Proof.
  intros Hr.
  assert (Hlt : (Z.to_nat r < Z.to_nat (count_passChars st))%nat) by lia.
  replace (nth (Z.to_nat r) (fill_passChars st) zero) with
    (nth (Z.to_nat r) (alphabet st) zero).
  - apply nth_In. rewrite alphabet_length. assumption.
  - unfold alphabet. rewrite nth_firstn.
    destruct (Nat.ltb_spec (Z.to_nat r) (Z.to_nat (count_passChars st)));
      [reflexivity | lia].
Qed.

(** X15. Whenever the program writes to standard output, it writes a
    complete password: exactly [passLen] characters, each one of the
    enabled classes, followed by a newline; and standard error then holds
    the reports of the flag loop and nothing else. *)
Theorem main_output_shape (argv : list string) (s rest : entropy)
  (status : Z) (out : string) (err : list err_write) :
  main argv s = Exited status out err rest ->
  out <> EmptyString ->
  exists st pw,
    handle_flags (tl argv) defaults = Proceed st /\
    out = (string_of_list_ascii pw ++ newline)%string /\
    List.length pw = Z.to_nat (passLen st) /\
    Forall (fun c => In c (alphabet st)) pw /\
    err = stderr st.
Proof.
  unfold main, run_main.
  destruct (handle_flags (tl argv) defaults) as [st | st];
    [| intros [= _ <- _ _] Hout; contradiction].
  cbv zeta.
  destruct (negb (copies_valid _ st)); [discriminate |].
  destruct (negb (in_block _ (passLen st))); [discriminate |].
  destruct (select _ _ _ _ _) as [pw s1 | pw e s1 | |] eqn:Hsel;
    try discriminate;
    destruct (range_in_block _ (passLen st)); try discriminate;
    [| intros [= _ <- _ _] Hout; contradiction].
  intros [= _ <- <- _] _.
  destruct (select_shape _ _ _ (count_passChars_nonneg st) _ _ _ _ Hsel)
    as [new [-> [Hn Hall]]].
  cbn [app] in *.
  assert (Hin : Forall (fun c => In c (alphabet st)) new).
  { eapply Forall_impl; [| exact Hall].
    intros c [r [Hr ->]]. apply index_in_alphabet, Hr. }
  exists st, new. split; [reflexivity |].
  split; [| split; [assumption | split; [assumption | reflexivity]]].
  unfold puts. rewrite c_string_terminated; [reflexivity |].
  intros Hz. rewrite Forall_forall in Hin.
  apply (alphabet_no_nul st), Hin, Hz.
Qed.

Lemma main_output_shape_witness :
  (main ["passgen"; "-l"; "-u"; "2"]%string [GRFull 13; GRFull 7] =
     Exited 0 ("37" ++ newline)%string [] [] /\
   ("37" ++ newline)%string <> EmptyString) /\
  exists st pw,
    handle_flags (tl ["passgen"; "-l"; "-u"; "2"]%string) defaults =
      Proceed st /\
    ("37" ++ newline)%string = (string_of_list_ascii pw ++ newline)%string /\
    List.length pw = Z.to_nat (passLen st) /\
    Forall (fun c => In c (alphabet st)) pw /\
    [] = stderr st.
Proof.
  split; [split; [reflexivity | discriminate] |].
  apply (main_output_shape ["passgen"; "-l"; "-u"; "2"]%string
           [GRFull 13; GRFull 7] [] 0 ("37" ++ newline)%string []);
    [reflexivity | discriminate].
Defined.

End SelectionFacts.

Section RunFacts.
Import Word Entropy RandInt Libc Cli Passgen Notions.



(** X17. With the four classes disabled and a length that is not
    zero, no run prints a password, whatever the allocator does: the
    program faults on a length that cannot be allocated, or ends in the
    division by zero of [randInt], or is still waiting for the entropy
    source, or reports a failed call of [getrandom] and exits. *)
Theorem main_empty_alphabet (heap : Z -> bool) (argv : list string)
  (st : settings) (s : entropy) :
  handle_flags (tl argv) defaults = Proceed st ->
  enableLower st = false -> enableUpper st = false ->
  enableNumber st = false -> enableSymbol st = false ->
  Z.to_nat (passLen st) <> O ->
  stdout_of (run_main heap argv s) = EmptyString /\
  (run_main heap argv s = Faulted EmptyString \/
   run_main heap argv s = Crashed (stderr st) \/
   run_main heap argv s = Waiting (stderr st) \/
   exists e rest,
     e <> 0 /\
     run_main heap argv s =
       Exited 0 EmptyString
         (stderr st ++ [Perror "Failed to get random" e]) rest).
Proof.
  intros Hflags Hl Hu Hn Hy Hlen.
  assert (Hcases :
            run_main heap argv s = Faulted EmptyString \/
            run_main heap argv s = Crashed (stderr st) \/
            run_main heap argv s = Waiting (stderr st) \/
            exists e rest,
              e <> 0 /\
              run_main heap argv s =
                Exited 0 EmptyString
                  (stderr st ++ [Perror "Failed to get random" e]) rest).
  { unfold run_main. rewrite Hflags. cbv zeta.
    assert (Hc : count_passChars st = 0).
    { unfold count_passChars. rewrite Hl, Hu, Hn, Hy. reflexivity. }
    rewrite Hc.
    destruct (negb (copies_valid _ st)); [left; reflexivity |].
    destruct (in_block _ (passLen st)) eqn:Hin; cbn [negb];
      [| left; reflexivity].
    rewrite (in_block_range _ _ Hin).
    destruct (Z.to_nat (passLen st)) as [| n]; [contradiction |].
    cbn [select].
    destruct (randInt_from_zero s 0) as [E | [E | [e [rest [He E]]]]];
      unfold randInt; rewrite E.
    - right; left. reflexivity.
    - right; right; left. reflexivity.
    - right; right; right. exists e, rest. split; [assumption |].
      destruct (Z.eqb_spec e 0) as [E0 | _]; [contradiction | reflexivity]. }
  split; [| exact Hcases].
  destruct Hcases as [E | [E | [E | [e [rest [_ E]]]]]]; rewrite E;
    reflexivity.
Qed.

Lemma main_empty_alphabet_witness :
  stdout_of
    (run_main default_heap ["passgen"; "-l"; "-u"; "-n"; "4"]%string
       [GRRead 2 0; GRFull 7]) = EmptyString /\
  (run_main default_heap ["passgen"; "-l"; "-u"; "-n"; "4"]%string
     [GRRead 2 0; GRFull 7] = Faulted EmptyString \/
   run_main default_heap ["passgen"; "-l"; "-u"; "-n"; "4"]%string
     [GRRead 2 0; GRFull 7] = Crashed [] \/
   run_main default_heap ["passgen"; "-l"; "-u"; "-n"; "4"]%string
     [GRRead 2 0; GRFull 7] = Waiting [] \/
   exists e rest,
     e <> 0 /\
     run_main default_heap ["passgen"; "-l"; "-u"; "-n"; "4"]%string
       [GRRead 2 0; GRFull 7] =
       Exited 0 EmptyString ([] ++ [Perror "Failed to get random" e]) rest).
Proof.
  apply (main_empty_alphabet default_heap
           ["passgen"; "-l"; "-u"; "-n"; "4"]%string
           (mkSettings false false false false 4 [])
           [GRRead 2 0; GRFull 7]);
    try reflexivity.
  cbn. discriminate.
Defined.

End RunFacts.

Section LengthArgument.
Import Word Libc Cli Passgen Notions.

Lemma read_digits_seen (s : string) :
  forall acc, snd (read_digits acc true s) = true.
Proof.
  induction s as [| c s IH]; intros acc; [reflexivity |].
  cbn [read_digits]. destruct (digit_value c); [apply IH | reflexivity].
Qed.

Lemma digit_value_range (c : ascii) (v : Z) :
  digit_value c = Some v -> 0 <= v <= 9.
Proof.
  unfold digit_value.
  destruct (Z.leb_spec 48 (Z.of_nat (nat_of_ascii c)));
    destruct (Z.leb_spec (Z.of_nat (nat_of_ascii c)) 57);
    cbn [andb]; intros [= <-]; lia.
Qed.

Lemma read_digits_nonneg (s : string) :
  forall acc seen, 0 <= acc -> 0 <= fst (read_digits acc seen s).
Proof.
  induction s as [| c s IH]; intros acc seen Hacc; [assumption |].
  cbn [read_digits]. destruct (digit_value c) as [v |] eqn:E; [| assumption].
  apply IH. pose proof (digit_value_range c v E). lia.
Qed.

(** A digit is no white space, no sign and no option letter. *)
Lemma digit_tests (d : ascii) (v : Z) :
  digit_value d = Some v ->
  isspace d = false /\
  Ascii.eqb d "+" = false /\ Ascii.eqb d "-" = false /\
  Ascii.eqb d "l" = false /\ Ascii.eqb d "u" = false /\
  Ascii.eqb d "n" = false /\ Ascii.eqb d "s" = false.
Proof.
  destruct d as [[] [] [] [] [] [] [] []]; intros H;
    try (cbv in H; discriminate); repeat split; reflexivity.
Qed.

(** [strtol] on a string that starts with a digit, and on the same string
    after a minus sign. *)
Lemma strtol_digits (d : ascii) (ds : string) (v : Z) :
  digit_value d = Some v ->
  let m := fst (read_digits 0 false (String d ds)) in
  strtol (String d ds) =
    (if m >? LONG_MAX then (LONG_MAX, ERANGE) else (m, 0)) /\
  strtol (String "-" (String d ds)) =
    (if - m <? LONG_MIN then (LONG_MIN, ERANGE) else (- m, 0)).
Proof.
  intros Hd m.
  pose proof (read_digits_nonneg (String d ds) 0 false ltac:(lia)) as Hm.
  fold m in Hm.
  assert (Hseen : read_digits 0 false (String d ds) = (m, true)).
  { subst m. cbn [read_digits]. rewrite Hd.
    pose proof (read_digits_seen ds (10 * 0 + v)) as Hs.
    destruct (read_digits (10 * 0 + v) true ds) as [a b].
    cbn [fst snd] in *. subst b. reflexivity. }
  destruct (digit_tests d v Hd) as [Hsp [Hplus [Hminus _]]].
  split.
  - unfold strtol. cbn [skip_spaces]. rewrite Hsp.
    assert (Hsign :
              match String d ds with
              | String "-"%char s' => (true, s')
              | String "+"%char s' => (false, s')
              | _ => (false, String d ds)
              end = (false, String d ds)).
    { clear -Hplus Hminus.
      destruct d as [[] [] [] [] [] [] [] []]; try reflexivity;
        discriminate. }
    rewrite Hsign, Hseen. cbn [negb].
    destruct (m >? LONG_MAX); [reflexivity |].
    destruct (Z.ltb_spec m LONG_MIN) as [Hlt | _]; [| reflexivity].
    unfold LONG_MIN in Hlt. lia.
  - unfold strtol. cbn [skip_spaces]. change (isspace "-") with false.
    cbv iota. rewrite Hseen. cbn [negb].
    destruct (Z.gtb_spec (- m) LONG_MAX) as [Hgt | _]; [| reflexivity].
    unfold LONG_MAX in Hgt. lia.
Qed.

(** X18. A last argument that starts with a digit is never an
    option.  Its leading digits give the length, whatever follows them
    ([12abc] gives 12) and without any report; only a number above
    [LONG_MAX] keeps the default length and is reported as an unrecognized
    option. *)
Theorem numeric_last_argument (d : ascii) (ds : string) (v : Z)
  (st : settings) :
  digit_value d = Some v ->
  let arg := String d ds in
  let m := fst (read_digits 0 false arg) in
  parseOption arg = OPTION_UNRECOGNIZED /\
  handle_flags [arg] st =
    Proceed
      (if m >? LONG_MAX
       then write_err (badOpt arg) (set_passLen PASS_LEN_DEFAULT st)
       else set_passLen m st).
Proof.
  intros Hd arg m.
  destruct (digit_tests d v Hd) as [_ [Hplus [Hminus _]]].
  assert (Hp : parseOption arg = OPTION_UNRECOGNIZED).
  { rewrite parseOption_tests. cbv zeta. subst arg.
    change (char_at (String d ds) 0) with d.
    rewrite Hplus, Hminus. reflexivity. }
  split; [exact Hp |].
  rewrite (handle_flags_length arg st Hp).
  destruct (strtol_digits d ds v Hd) as [E _]. fold arg m in E. rewrite E.
  pose proof (read_digits_nonneg arg 0 false ltac:(lia)) as Hm. fold m in Hm.
  destruct (Z.gtb_spec m LONG_MAX) as [Hgt | Hle]; cbn [fst snd].
  - reflexivity.
  - cbn [Z.eqb negb]. unfold wrap.
    rewrite Z.mod_small; [reflexivity |].
    unfold LONG_MAX in Hle. unfold modulus, SIZE_BITS. lia.
Qed.

Lemma numeric_last_argument_witness :
  digit_value "1" = Some 1 /\
  parseOption "12abc" = OPTION_UNRECOGNIZED /\
  handle_flags ["12abc"%string] defaults =
    Proceed
      (if fst (read_digits 0 false "12abc") >? LONG_MAX
       then write_err (badOpt "12abc") (set_passLen PASS_LEN_DEFAULT defaults)
       else set_passLen (fst (read_digits 0 false "12abc")) defaults).
Proof.
  split; [reflexivity |].
  apply (numeric_last_argument "1" "2abc" 1 defaults). reflexivity.
Defined.

(** X19. A last argument made of a minus sign and a number is not
    rejected either: [strtol] returns the negative value, the conversion
    to [size_t] wraps it, and the length becomes [2^64] minus the number
    ([-5] asks for 18446744073709551611 characters), with no report. *)
Theorem negative_last_argument (d : ascii) (ds : string) (v : Z)
  (st : settings) :
  digit_value d = Some v ->
  let m := fst (read_digits 0 false (String d ds)) in
  0 < m <= 2 ^ 63 ->
  parseOption (String "-" (String d ds)) = OPTION_UNRECOGNIZED /\
  handle_flags [String "-" (String d ds)] st =
    Proceed (set_passLen (2 ^ 64 - m) st).
Proof.
  intros Hd m Hm.
  destruct (digit_tests d v Hd)
    as [_ [_ [Hminus [Hl [Hu [Hn Hs]]]]]].
  assert (Hp : parseOption (String "-" (String d ds)) = OPTION_UNRECOGNIZED).
  { rewrite parseOption_tests. cbv zeta.
    change (char_at (String "-" (String d ds)) 0) with "-"%char.
    change (char_at (String "-" (String d ds)) 1) with d.
    rewrite Hminus, Hl, Hu, Hn, Hs. reflexivity. }
  split; [exact Hp |].
  rewrite (handle_flags_length _ st Hp).
  destruct (strtol_digits d ds v Hd) as [_ E]. fold m in E. rewrite E.
  destruct (Z.ltb_spec (- m) LONG_MIN) as [Hlt | _];
    [unfold LONG_MIN in Hlt; lia |].
  cbn [fst snd Z.eqb negb]. do 2 f_equal. unfold wrap, modulus, SIZE_BITS.
  replace (- m) with (2 ^ 64 - m + (-1) * 2 ^ 64) by lia.
  rewrite Z.mod_add by lia. apply Z.mod_small. lia.
Qed.

Lemma negative_last_argument_witness :
  (digit_value "5" = Some 5 /\
   0 < fst (read_digits 0 false "5") <= 2 ^ 63) /\
  parseOption "-5" = OPTION_UNRECOGNIZED /\
  handle_flags ["-5"%string] defaults =
    Proceed (set_passLen (2 ^ 64 - fst (read_digits 0 false "5")) defaults).
Proof.
  split; [split; [reflexivity |] |].
  - change (fst (read_digits 0 false "5")) with 5. lia.
  - apply (negative_last_argument "5" "" 5 defaults); [reflexivity |].
    change (fst (read_digits 0 false "5")) with 5. lia.
Defined.

End LengthArgument.

Section Reports.
Import Libc Cli Passgen Notions.

(** The flag loop only ever appends to standard error. *)
Lemma handle_flags_appends (args : list string) :
  forall st st',
    handle_flags args st = Proceed st' ->
    exists written, stderr st' = stderr st ++ written.
Proof.
  induction args as [| x args IH]; intros st st' H.
  - injection H as <-. exists []. rewrite app_nil_r. reflexivity.
  - cbn [handle_flags] in H.
    destruct (parseOption x); try discriminate;
      try (destruct (IH _ _ H) as [w Hw]; exists w; exact Hw).
    destruct args as [| y rest].
    + destruct (strtol x) as [value errno].
      destruct (negb (Z.eqb errno 0));
        destruct (IH _ _ H) as [w Hw]; cbn [stderr write_err set_passLen] in Hw.
      * exists (badOpt x ++ w). rewrite Hw, app_assoc. reflexivity.
      * exists w. exact Hw.
    + destruct (IH _ _ H) as [w Hw]. cbn [stderr write_err] in Hw.
      exists (badOpt x ++ w). rewrite Hw, app_assoc. reflexivity.
Qed.

(** X20. Every argument that is no option and is not the last one is
    reported on standard error, with the three writes of [badOpt], and the
    run goes on; what was written before it is kept. *)
Theorem unrecognized_is_reported (pre post : list string) (x : string)
  (st st' : settings) :
  parseOption x = OPTION_UNRECOGNIZED ->
  post <> [] ->
  handle_flags (pre ++ x :: post) st = Proceed st' ->
  exists before after,
    stderr st' = stderr st ++ before ++ badOpt x ++ after.
Proof.
  revert st. induction pre as [| p pre IH]; intros st Hx Hpost H.
  - cbn [app handle_flags] in H. rewrite Hx in H.
    destruct post as [| y rest]; [contradiction |].
    destruct (handle_flags_appends _ _ _ H) as [w Hw].
    cbn [stderr write_err] in Hw.
    exists [], w. rewrite Hw, <- app_assoc. reflexivity.
  - cbn [app handle_flags] in H.
    assert (Hgo : forall st1 w1,
               stderr st1 = stderr st ++ w1 ->
               handle_flags (pre ++ x :: post) st1 = Proceed st' ->
               exists before after,
                 stderr st' = stderr st ++ before ++ badOpt x ++ after).
    { intros st1 w1 E1 H1.
      destruct (IH st1 Hx Hpost H1) as [b [a E]].
      exists (w1 ++ b), a. rewrite E, E1, <- !app_assoc. reflexivity. }
    destruct (parseOption p); try discriminate;
      try (eapply Hgo; [| exact H]; symmetry; apply app_nil_r).
    destruct pre as [| q pre']; cbn [app] in H;
      (eapply Hgo; [| exact H]); reflexivity.
Qed.

Lemma unrecognized_is_reported_witness :
  (parseOption "10"%string = OPTION_UNRECOGNIZED /\
   ["+s"; "8"]%string <> [] /\
   handle_flags (["-x"]%string ++ "10"%string :: ["+s"; "8"]%string)
     defaults =
     Proceed
       (mkSettings true true true true 8 (badOpt "-x" ++ badOpt "10"))) /\
  exists before after,
    stderr (mkSettings true true true true 8 (badOpt "-x" ++ badOpt "10")) =
      stderr defaults ++ before ++ badOpt "10" ++ after.
Proof.
  split; [split; [reflexivity | split; [discriminate | reflexivity]] |].
  apply (unrecognized_is_reported ["-x"]%string ["+s"; "8"]%string
           "10"%string defaults);
    [reflexivity | discriminate | reflexivity].
Defined.

End Reports.

Section UniformityWitness.
Import Word RandInt.

Lemma randInt_never_uniform_witness :
  (2 <= 62 <= MAX /\ 0 < 5 < 62) /\
  accepted_count 62 0 = accepted_count 62 5 + 1.
Proof.
  split; [rewrite MAX_value; lia |].
  apply (randInt_never_uniform 62 5); [rewrite MAX_value; lia | lia].
Defined.

End UniformityWitness.
